(** * Static replication of decompounded CMS payoffs (QF 605, part 4)

    A real-valued shallow embedding of the pricing functions of
    [QF 605 Part 4 Final.ipynb]: the IRR annuity and its derivatives, the
    payoff [g] and the weights [h], the SABR volatility, the Black76 and
    IRR-settled swaption prices, the replication integrands and the two
    present values [v_0] and [v_1].

    Floating-point numbers are read as real numbers, and so are the integers
    the notebook passes for the frequency [m], the number of periods [N] and
    the maturity [T].  An operation that has no real result in Python
    (division by zero, logarithm of a non-positive number, a fractional power
    of a negative number, ...) makes the whole expression fail; failure is
    [None].  Rounding, overflow and the IEEE infinities and NaN that NumPy
    would propagate in place of an exception are outside the model. *)

From Stdlib Require Import Reals Lra Lia ZArith ClassicalEpsilon.

Local Open Scope R_scope.

(** ** The standard normal distribution

    [scipy.stats.norm.cdf] is the standard normal distribution function.  It is
    defined here from the density, as one half plus the integral of the
    density from 0 to [x]. *)

Module Normal.

Definition pdf (t : R) : R := exp (- (t * t) / 2) / sqrt (2 * PI).

Lemma pdf_pos t : 0 < pdf t.
Proof.
  unfold pdf. apply Rdiv_lt_0_compat; [apply exp_pos|].
  apply sqrt_lt_R0. generalize PI_RGT_0; lra.
Qed.

Lemma pdf_even t : pdf (- t) = pdf t.
Proof. unfold pdf. f_equal. f_equal. lra. Qed.

Lemma pdf_continuous : continuity pdf.
Proof.
  intro t.
  change (continuity_pt
    (mult_fct (comp exp (fun t => - (t * t) / 2)) (fct_cte (/ sqrt (2 * PI)))) t).
  { apply continuity_pt_mult; [|apply continuity_pt_const; intros u v; reflexivity].
    apply continuity_pt_comp.
    + apply derivable_continuous_pt.
      exists (- (2 * t) / 2).
      apply (derivable_pt_lim_ext (fun t => (- Rsqr t) * / 2)).
      { intro z. unfold Rsqr. lra. }
      replace (- (2 * t) / 2) with (- (2 * t) * / 2) by lra.
      apply derivable_pt_lim_scal_right, derivable_pt_lim_opp, derivable_pt_lim_Rsqr.
    + apply derivable_continuous_pt, derivable_pt_exp. }
Qed.

Lemma pdf_integrable (a b : R) : Riemann_integrable pdf a b.
Proof.
  destruct (Rle_dec a b) as [Hab | Hab].
  - apply continuity_implies_RiemannInt; [exact Hab|].
    intros x _. apply pdf_continuous.
  - apply RiemannInt_P1, continuity_implies_RiemannInt; [lra|].
    intros x _. apply pdf_continuous.
Qed.

Definition cdf (x : R) : R := 1 / 2 + RiemannInt (pdf_integrable 0 x).

End Normal.

(** ** Partial real arithmetic *)

Module PyFloat.

(** The result of a Python float expression: a real number, or a failure. *)
Definition PR : Type := option R.

Definition val (x : R) : PR := Some x.

Definition lift1 (f : R -> PR) (a : PR) : PR :=
  match a with
  | Some x => f x
  | None => None
  end.

Definition lift2 (f : R -> R -> PR) (a b : PR) : PR :=
  match a, b with
  | Some x, Some y => f x y
  | _, _ => None
  end.

Definition add : PR -> PR -> PR := lift2 (fun x y => Some (x + y)).
Definition sub : PR -> PR -> PR := lift2 (fun x y => Some (x - y)).
Definition mul : PR -> PR -> PR := lift2 (fun x y => Some (x * y)).
Definition neg : PR -> PR := lift1 (fun x => Some (- x)).

(** [x / y]: true division, no result when [y] is zero. *)
Definition div_R (x y : R) : PR :=
  if Req_EM_T y 0 then None else Some (x / y).
Definition div : PR -> PR -> PR := lift2 div_R.

(** [y] holds an integer value. *)
Definition is_integer (y : R) : {y = IZR (Int_part y)} + {y <> IZR (Int_part y)} :=
  Req_EM_T y (IZR (Int_part y)).

(** [x ** y] on floats.  A positive base is [exp (y * ln x)]; a zero base
    gives 0 for a positive exponent, 1 for a zero exponent and fails for a
    negative one; a negative base has a real result only for an integer
    exponent. *)
Definition pow_R (x y : R) : PR :=
  if Rlt_dec 0 x then Some (Rpower x y)
  else if Req_EM_T x 0 then
    if Rlt_dec 0 y then Some 0
    else if Req_EM_T y 0 then Some 1
    else None
  else
    if is_integer y then Some (powerRZ x (Int_part y)) else None.
Definition pow : PR -> PR -> PR := lift2 pow_R.

(** [np.log]: finite only on positive numbers. *)
Definition log_R (x : R) : PR :=
  if Rlt_dec 0 x then Some (ln x) else None.
Definition np_log : PR -> PR := lift1 log_R.

(** [np.sqrt]: finite only on non-negative numbers. *)
Definition sqrt_R (x : R) : PR :=
  if Rle_dec 0 x then Some (sqrt x) else None.
Definition np_sqrt : PR -> PR := lift1 sqrt_R.

(** [scipy.stats.norm.cdf] is total. *)
Definition norm_cdf : PR -> PR := lift1 (fun x => Some (Normal.cdf x)).

(** Sequencing, for statements that bind an intermediate result. *)
Definition bind {A B : Type} (a : option A) (k : A -> option B) : option B :=
  match a with
  | Some x => k x
  | None => None
  end.

End PyFloat.

Import PyFloat.

Coercion val : R >-> PR.

Declare Scope py_scope.
Delimit Scope py_scope with py.
Bind Scope py_scope with PR.

Notation "x + y" := (add x y) : py_scope.
Notation "x - y" := (sub x y) : py_scope.
Notation "x * y" := (mul x y) : py_scope.
Notation "x / y" := (div x y) : py_scope.
Notation "- x" := (neg x) : py_scope.
Notation "x ** y" := (pow x y) (at level 30, right associativity) : py_scope.
Notation "x <- a ;; k" := (bind a (fun x => k))
  (at level 61, a at next level, right associativity) : py_scope.

(** ** The IRR annuity and its derivatives *)

Definition IRR_0 (K m N : R) : PR :=
  (1 / K * (1 - 1 / (1 + K / m) ** (N * m)))%py.

Definition IRR_1 (K m N : R) : PR :=
  (- 1 / K * IRR_0 K m N + 1 / (K * m) * N * m / (1 + K / m) ** (N * m + 1))%py.

Definition IRR_2 (K m N : R) : PR :=
  (- 2 / K * IRR_1 K m N
   - 1 / (K * m * m) * (N * m) * (N * m + 1) / (1 + K / m) ** (N * m + 2))%py.

(** ** The payoff [g] and its derivatives *)

Definition g_0 (K : R) : PR :=
  (K ** (1 / 4) - 0.04 ** (1 / 2))%py.

Definition g_1 (K : R) : PR :=
  ((1 / 4) * K ** (- 3 / 4))%py.

Definition g_2 (K : R) : PR :=
  ((- 3 / 16) * K ** (- 7 / 4))%py.

(** ** The replication weights [h] *)

Definition h_0 (K m N : R) : PR :=
  (g_0 K / IRR_0 K m N)%py.

Definition h_1 (K m N : R) : PR :=
  ((IRR_0 K m N * g_1 K - g_0 K * IRR_1 K m N) / IRR_0 K m N ** 2)%py.

Definition h_2 (K m N : R) : PR :=
  ((IRR_0 K m N * g_2 K - IRR_2 K m N * g_0 K - 2 * IRR_1 K m N * g_1 K)
     / IRR_0 K m N ** 2
   + 2 * IRR_1 K m N ** 2 * g_0 K / IRR_0 K m N ** 3)%py.

(** ** The SABR implied volatility *)

Definition SABR (F K T alpha beta rho nu : R) : PR :=
  let X := K in
  if Rlt_dec (Rabs (F - K)) 1e-12 then
    (let numer1 := (((1 - beta) ** 2) / 24) * alpha * alpha / (F ** (2 - 2 * beta)) in
     let numer2 := 0.25 * rho * beta * nu * alpha / (F ** (1 - beta)) in
     let numer3 := ((2 - 3 * rho * rho) / 24) * nu * nu in
     let VolAtm := alpha * (1 + (numer1 + numer2 + numer3) * T) / (F ** (1 - beta)) in
     let sabrsigma := VolAtm in
     sabrsigma)%py
  else
    (let z := (nu / alpha) * ((F * X) ** (0.5 * (1 - beta))) * np_log (F / X) in
     let zhi := np_log ((((1 - 2 * rho * z + z * z) ** 0.5) + z - rho) / (1 - rho)) in
     let numer1 := (((1 - beta) ** 2) / 24) * ((alpha * alpha) / ((F * X) ** (1 - beta))) in
     let numer2 := 0.25 * rho * beta * nu * alpha / ((F * X) ** ((1 - beta) / 2)) in
     let numer3 := ((2 - 3 * rho * rho) / 24) * nu * nu in
     let numer := alpha * (1 + (numer1 + numer2 + numer3) * T) * z in
     let denom1 := ((1 - beta) ** 2 / 24) * (np_log (F / X)) ** 2 in
     let denom2 := (((1 - beta) ** 4) / 1920) * ((np_log (F / X)) ** 4) in
     let denom := ((F * X) ** ((1 - beta) / 2)) * (1 + denom1 + denom2) * zhi in
     let sabrsigma := numer / denom in
     sabrsigma)%py.

(** ** Black76 and the IRR-settled swaptions *)

Definition Black76Call (F K sigma T : R) : PR :=
  (let d1 := (np_log (F / K) + (sigma ** 2) * T / 2) / (sigma * np_sqrt T) in
   let d2 := (np_log (F / K) - (sigma ** 2) * T / 2) / (sigma * np_sqrt T) in
   F * norm_cdf d1 - K * norm_cdf d2)%py.

Definition Black76Put (F K sigma T : R) : PR :=
  (let d1 := (np_log (F / K) + (sigma ** 2) * T / 2) / (sigma * np_sqrt T) in
   let d2 := (np_log (F / K) - (sigma ** 2) * T / 2) / (sigma * np_sqrt T) in
   K * norm_cdf (- d2) - F * norm_cdf (- d1))%py.

Definition payer_swaption (discount F K sigma T m N : R) : PR :=
  (discount * IRR_0 F m N * Black76Call F K sigma T)%py.

Definition receiver_swaption (discount F K sigma T m N : R) : PR :=
  (discount * IRR_0 F m N * Black76Put F K sigma T)%py.

(** ** The replication integrands *)

Definition call_integrand (discount F K sigma T m N : R) : PR :=
  (let price := h_2 K m N * payer_swaption discount F K sigma T m N in
   price)%py.

Definition put_integrand (discount F K sigma T m N : R) : PR :=
  (let price := h_2 K m N * receiver_swaption discount F K sigma T m N in
   price)%py.

(** ** The two present values

    [scipy.integrate.quad f a b] is an external quadrature routine: it returns
    a pair, the estimate of the integral of [f] from [a] to [b] and an error
    bound.  It is a parameter of the development.  Python evaluates the
    arguments of a call before the call, so the volatility is bound first. *)

Section Replication.

Variable quad : (R -> PR) -> R -> R -> option (R * R).

Definition I_put (discount F T m N alpha beta rho nu : R) : option (R * R) :=
  quad (fun x => sigma <- SABR F x T alpha beta rho nu ;;
                 put_integrand discount F x sigma T m N)%py 0.0 F.

Definition I_call (discount F T m N alpha beta rho nu : R) : option (R * R) :=
  quad (fun x => sigma <- SABR F x T alpha beta rho nu ;;
                 call_integrand discount F x sigma T m N)%py F 5000.

Definition v_0 (discount F T m N alpha beta rho nu : R) : PR :=
  (I_put <- I_put discount F T m N alpha beta rho nu ;;
   I_call <- I_call discount F T m N alpha beta rho nu ;;
   discount * g_0 F + fst I_put + fst I_call)%py.

Definition L : PR := ((0.04 ** (1 / 2)) ** 4)%py.

Definition I_call2 (discount F T m N alpha beta rho nu L : R) : option (R * R) :=
  quad (fun x => sigma <- SABR F x T alpha beta rho nu ;;
                 call_integrand discount F x sigma T m N)%py L 5000.

(** The last statement of the cell, for a given value of the global [L]. *)
Definition v_1_at (L : R) (discount F T m N alpha beta rho nu : R) : PR :=
  (I_call2 <- I_call2 discount F T m N alpha beta rho nu L ;;
   sigma <- SABR F L T alpha beta rho nu ;;
   h_1 L m N * payer_swaption discount F L sigma T m N + fst I_call2)%py.

Definition v_1 (discount F T m N alpha beta rho nu : R) : PR :=
  (L <- L ;; v_1_at L discount F T m N alpha beta rho nu)%py.

End Replication.

(** ** Closed forms

    The formulas of the pricing functions as total functions on the reals. *)

Module Formula.

(** The level annuity and its derivatives in the strike. *)
Definition IRR (K m N : R) : R :=
  (1 / K) * (1 - Rpower (1 + K / m) (- (N * m))).

Definition IRR' (K m N : R) : R :=
  - (1 / K) * IRR K m N
  + (1 / (K * m)) * (N * m) * Rpower (1 + K / m) (- (N * m + 1)).

Definition IRR'' (K m N : R) : R :=
  - (2 / K) * IRR' K m N
  - (1 / (K * (m * m))) * (N * m) * (N * m + 1) * Rpower (1 + K / m) (- (N * m + 2)).

(** The payoff transform with exponents [p], [q] and level [L0]. *)
Definition g (p q L0 K : R) : R := Rpower K (1 / p) - Rpower L0 (1 / q).
Definition g' (p : R) (K : R) : R := (1 / p) * Rpower K (1 / p - 1).
Definition g'' (p : R) (K : R) : R := (1 / p) * (1 / p - 1) * Rpower K (1 / p - 2).

(** The replication weight and its derivatives. *)
Definition h (p q L0 K m N : R) : R := g p q L0 K / IRR K m N.

Definition h' (p q L0 K m N : R) : R :=
  (IRR K m N * g' p K - g p q L0 K * IRR' K m N) / IRR K m N ^ 2.

Definition h'' (p q L0 K m N : R) : R :=
  (IRR K m N * g'' p K - IRR'' K m N * g p q L0 K - 2 * IRR' K m N * g' p K)
    / IRR K m N ^ 2
  + 2 * IRR' K m N ^ 2 * g p q L0 K / IRR K m N ^ 3.

(** Black76 on a forward. *)
Definition d1 (F K sigma T : R) : R :=
  (ln (F / K) + sigma ^ 2 * T / 2) / (sigma * sqrt T).

Definition d2 (F K sigma T : R) : R :=
  (ln (F / K) - sigma ^ 2 * T / 2) / (sigma * sqrt T).

Definition Black76Call (F K sigma T : R) : R :=
  F * Normal.cdf (d1 F K sigma T) - K * Normal.cdf (d2 F K sigma T).

Definition Black76Put (F K sigma T : R) : R :=
  K * Normal.cdf (- d2 F K sigma T) - F * Normal.cdf (- d1 F K sigma T).

(** The SABR expansion: the correction terms at the money, the
    at-the-money volatility, and the parts of the general formula. *)
Definition sabr_term1 (F alpha beta : R) : R :=
  ((1 - beta) ^ 2 / 24) * alpha ^ 2 / Rpower F (2 - 2 * beta).

Definition sabr_term2 (F alpha beta rho nu : R) : R :=
  0.25 * rho * beta * nu * alpha / Rpower F (1 - beta).

Definition sabr_term3 (rho nu : R) : R :=
  ((2 - 3 * rho ^ 2) / 24) * nu ^ 2.

Definition sabr_atm_factor (F T alpha beta rho nu : R) : R :=
  1 + (sabr_term1 F alpha beta + sabr_term2 F alpha beta rho nu
       + sabr_term3 rho nu) * T.

Definition sabr_atm (F T alpha beta rho nu : R) : R :=
  alpha * sabr_atm_factor F T alpha beta rho nu / Rpower F (1 - beta).

Definition sabr_z (F K alpha beta nu : R) : R :=
  (nu / alpha) * Rpower (F * K) ((1 - beta) / 2) * ln (F / K).

Definition sabr_chi (rho z : R) : R :=
  ln ((sqrt (1 - 2 * rho * z + z ^ 2) + z - rho) / (1 - rho)).

Definition sabr_denom1 (F K beta : R) : R :=
  ((1 - beta) ^ 2 / 24) * ln (F / K) ^ 2.

Definition sabr_denom2 (F K beta : R) : R :=
  ((1 - beta) ^ 4 / 1920) * ln (F / K) ^ 4.

Definition sabr_denom (F K alpha beta rho nu : R) : R :=
  Rpower (F * K) ((1 - beta) / 2)
  * (1 + sabr_denom1 F K beta + sabr_denom2 F K beta)
  * sabr_chi rho (sabr_z F K alpha beta nu).

(** The general formula with the correction terms of the at-the-money
    form, in powers of [F]. *)
Definition sabr_general_atm_terms (F K T alpha beta rho nu : R) : R :=
  alpha * sabr_atm_factor F T alpha beta rho nu * sabr_z F K alpha beta nu
  / sabr_denom F K alpha beta rho nu.

(** The correction terms in powers of [F * K], and the general formula
    with these. *)
Definition sabr_numer1 (F K alpha beta : R) : R :=
  ((1 - beta) ^ 2 / 24) * (alpha ^ 2 / Rpower (F * K) (1 - beta)).

Definition sabr_numer2 (F K alpha beta rho nu : R) : R :=
  0.25 * rho * beta * nu * alpha / Rpower (F * K) ((1 - beta) / 2).

Definition sabr_factor (F K T alpha beta rho nu : R) : R :=
  1 + (sabr_numer1 F K alpha beta + sabr_numer2 F K alpha beta rho nu
       + sabr_term3 rho nu) * T.

Definition sabr_general (F K T alpha beta rho nu : R) : R :=
  alpha * sabr_factor F K T alpha beta rho nu * sabr_z F K alpha beta nu
  / sabr_denom F K alpha beta rho nu.

(** The correction factor of the branch that [SABR] takes. *)
Definition sabr_branch_factor (F K T alpha beta rho nu : R) : R :=
  if Rlt_dec (Rabs (F - K)) 1e-12
  then sabr_atm_factor F T alpha beta rho nu
  else sabr_factor F K T alpha beta rho nu.

End Formula.

(** [f'] is the derivative of [f] on the positive strikes: both return a
    value there, and the values of [f'] are the derivative of the values of
    [f]. *)
Definition derivative_on_pos (f f' : R -> PR) : Prop :=
  exists F F' : R -> R,
    forall x, 0 < x ->
      f x = Some (F x) /\ f' x = Some (F' x) /\ derivable_pt_lim F x (F' x).

(** ** The replication kernels and the quadrature

    The volatility [SABR] returns at a strike, by branch, and the two
    integrands in closed form. *)
Definition sabr_vol (F K T alpha beta rho nu : R) : R :=
  if Rlt_dec (Rabs (F - K)) 1e-12
  then Formula.sabr_atm F T alpha beta rho nu
  else Formula.sabr_general F K T alpha beta rho nu.

Definition put_kernel (D F T m N alpha beta rho nu K : R) : R :=
  Formula.h'' 4 2 0.04 K m N
  * (D * Formula.IRR F m N
     * Formula.Black76Put F K (sabr_vol F K T alpha beta rho nu) T).

Definition call_kernel (D F T m N alpha beta rho nu K : R) : R :=
  Formula.h'' 4 2 0.04 K m N
  * (D * Formula.IRR F m N
     * Formula.Black76Call F K (sabr_vol F K T alpha beta rho nu) T).

(** The integral of [g] over the open interval [(a, b)]: [g] is Riemann
    integrable on every closed interval inside it, and the integrals over
    [[u, v]] tend to [I] as [u] decreases to [a] and [v] increases to [b].
    The integrand may be unbounded at the end points, as the put integrand is
    at the strike [0]. *)
Definition integrals_converge (g : R -> R) (a b I : R) : Prop :=
  forall eps, 0 < eps ->
    exists delta, 0 < delta /\
      forall (u v : R) (pr : Riemann_integrable g u v),
        a < u < a + delta -> b - delta < v < b -> u <= v ->
        Rabs (RiemannInt pr - I) < eps.

Definition integral_on_open (g : R -> R) (a b I : R) : Prop :=
  (forall u v, a < u -> u <= v -> v < b -> inhabited (Riemann_integrable g u v)) /\
  integrals_converge g a b I.

(** The integral from [a] to [b] in either order, as [quad] takes its
    bounds. *)
Definition has_integral (g : R -> R) (a b I : R) : Prop :=
  (a < b /\ integral_on_open g a b I)
  \/ (a = b /\ I = 0)
  \/ (b < a /\ integral_on_open g b a (- I)).

(** Over the reals a quadrature has no truncation error: an estimate it
    returns for an integrand that has the values of [g] inside the interval
    is the integral of [g].  The integrand is not used at the end points. *)
Definition exact_quadrature (quad : (R -> PR) -> R -> R -> option (R * R)) : Prop :=
  forall (f : R -> PR) (a b I e : R),
    quad f a b = Some (I, e) ->
    forall (g : R -> R) (J : R),
      (forall x, Rmin a b < x < Rmax a b -> f x = Some (g x)) ->
      has_integral g a b J ->
      I = J.

(** * Properties *)

(** ** The normal distribution function *)

Module NormalFacts.
Import Normal.

Lemma cdf_0 : cdf 0 = 1 / 2.
Proof.
  unfold cdf.
  rewrite (RiemannInt_P9 (pdf_integrable 0 0)). lra.
Qed.

(** The distribution function is an antiderivative of the density. *)
Lemma cdf_derivable_pt_lim x : derivable_pt_lim cdf x (pdf x).
Proof.
  set (A := Rmin x 0 - 1). set (B := Rmax x 0 + 1).
  assert (HxA : A < x < B).
  { unfold A, B. generalize (Rmin_l x 0) (Rmax_l x 0). lra. }
  assert (H0A : A < 0 < B).
  { unfold A, B. generalize (Rmin_r x 0) (Rmax_r x 0). lra. }
  assert (h : A <= B) by lra.
  assert (C0 : forall z, A <= z <= B -> continuity_pt pdf z).
  { intros z _. apply pdf_continuous. }
  pose (P := primitive h (FTC_P1 h C0)).
  apply (derivable_pt_lim_locally_ext
           (fun z => P z + (1 / 2 - RiemannInt (pdf_integrable A 0))) cdf x A B);
    [exact HxA | |].
  - intros z Hz. unfold P, primitive, cdf.
    destruct (Rle_dec A z) as [Hl | Hl]; [|lra].
    destruct (Rle_dec z B) as [Hr | Hr]; [|lra].
    rewrite <- (RiemannInt_P26 (pdf_integrable A 0) (pdf_integrable 0 z)
                  (FTC_P1 h C0 Hl Hr)).
    lra.
  - replace (pdf x) with (pdf x + 0) by lra.
    apply (derivable_pt_lim_plus P (fct_cte _)).
    + apply RiemannInt_P27. exact HxA.
    + apply derivable_pt_lim_const.
Qed.

(** Reflection: [cdf x + cdf (- x) = 1]. *)
Lemma cdf_opp x : cdf x + cdf (- x) = 1.
Proof.
  pose (H := fun z => cdf z + cdf (- z)).
  assert (dH : forall z, derivable_pt_lim H z 0).
  { intro z. unfold H.
    replace 0 with (pdf z + - pdf (- z)) by (rewrite pdf_even; lra).
    apply (derivable_pt_lim_plus cdf (fun z => cdf (- z))).
    - apply cdf_derivable_pt_lim.
    - apply (derivable_pt_lim_mirr_fwd cdf z (- pdf (- z))).
      rewrite Ropp_involutive. apply cdf_derivable_pt_lim. }
  assert (pr : derivable H) by (intro z; exists 0; apply dH).
  assert (Hc : constant H).
  { apply (null_derivative_1 H pr). intro z.
    apply (derive_pt_eq_0 H z 0 (pr z)), dH. }
  change (H x = 1). rewrite (Hc x 0). unfold H.
  rewrite Ropp_0, cdf_0. lra.
Qed.

(** Strict increase across the origin: [cdf (- d) < cdf d] for [d > 0]. *)
Lemma cdf_lt_opp d : 0 < d -> cdf (- d) < cdf d.
Proof.
  intro Hd.
  assert (Hp : pdf d * d <= RiemannInt (pdf_integrable 0 d)).
  { pose proof (@RiemannInt_const_bound pdf 0 d (pdf d) (pdf 0)
                  (pdf_integrable 0 d)) as Hb.
    rewrite Rminus_0_r in Hb. apply Hb; [lra|].
    intros t Ht. unfold pdf. split.
    - apply Rmult_le_compat_r.
      { left. apply Rinv_0_lt_compat, sqrt_lt_R0. generalize PI_RGT_0; lra. }
      destruct (Rle_dec (- (d * d) / 2) (- (t * t) / 2)) as [Hle | Hn]; [|nra].
      destruct Hle as [Hlt | Heq]; [left; apply exp_increasing; exact Hlt|].
      rewrite Heq. apply Rle_refl.
    - apply Rmult_le_compat_r.
      { left. apply Rinv_0_lt_compat, sqrt_lt_R0. generalize PI_RGT_0; lra. }
      left. apply exp_increasing. nra. }
  pose proof (pdf_pos d) as Hpos.
  pose proof (cdf_opp d) as Hs.
  unfold cdf in *. nra.
Qed.

End NormalFacts.

(** ** Evaluation of partial operations *)

Lemma div_R_val (x y : R) : y <> 0 -> div_R x y = Some (x / y).
Proof.
  intro Hy. unfold div_R. destruct (Req_EM_T y 0) as [E | _]; [contradiction|reflexivity].
Qed.

Lemma pow_R_pos (x y : R) : 0 < x -> pow_R x y = Some (Rpower x y).
Proof.
  intro Hx. unfold pow_R. destruct (Rlt_dec 0 x) as [_ | E]; [reflexivity|contradiction].
Qed.

Lemma Int_part_IZR (z : Z) : Int_part (IZR z) = z.
Proof. symmetry. apply Int_part_spec. lra. Qed.

(** A natural-number exponent is the iterated product, for every base. *)
Lemma pow_R_nat (x : R) (n : nat) : pow_R x (IZR (Z.of_nat n)) = Some (x ^ n).
Proof.
  unfold pow_R. rewrite <- INR_IZR_INZ.
  destruct (Rlt_dec 0 x) as [Hx | Hx].
  - rewrite Rpower_pow by exact Hx. reflexivity.
  - destruct (Req_EM_T x 0) as [-> | Hx0].
    + destruct n as [| n].
      * cbn [INR]. destruct (Rlt_dec 0 0) as [F | _]; [lra|].
        destruct (Req_EM_T 0 0) as [_ | F]; [reflexivity|contradiction F; reflexivity].
      * destruct (Rlt_dec 0 (INR (S n))) as [_ | F].
        { rewrite pow_i by lia. reflexivity. }
        contradiction F. apply lt_0_INR. lia.
    + rewrite INR_IZR_INZ. unfold is_integer.
      destruct (Req_EM_T _ _) as [_ | F].
      * rewrite Int_part_IZR, <- pow_powerRZ. reflexivity.
      * contradiction F. rewrite Int_part_IZR. reflexivity.
Qed.

Lemma pow_R_2 (x : R) : pow_R x 2 = Some (x ^ 2).
Proof. exact (pow_R_nat x 2). Qed.

Lemma pow_R_3 (x : R) : pow_R x 3 = Some (x ^ 3).
Proof. exact (pow_R_nat x 3). Qed.

Lemma pow_R_4 (x : R) : pow_R x 4 = Some (x ^ 4).
Proof. exact (pow_R_nat x 4). Qed.

Lemma log_R_pos (x : R) : 0 < x -> log_R x = Some (ln x).
Proof.
  intro Hx. unfold log_R. destruct (Rlt_dec 0 x) as [_ | E]; [reflexivity|contradiction].
Qed.

Lemma sqrt_R_nonneg (x : R) : 0 <= x -> sqrt_R x = Some (sqrt x).
Proof.
  intro Hx. unfold sqrt_R. destruct (Rle_dec 0 x) as [_ | E]; [reflexivity|contradiction].
Qed.

Lemma Rpower_pos (x y : R) : 0 < Rpower x y.
Proof. apply exp_pos. Qed.

Lemma Rpower_neq_0 (x y : R) : Rpower x y <> 0.
Proof. apply Rgt_not_eq, Rpower_pos. Qed.

Create HintDb pyfloat.

#[local] Hint Resolve Rpower_pos Rpower_neq_0 : pyfloat.

(** Side conditions of the evaluation steps. *)
Ltac py_side :=
  first [ assumption
        | solve [auto with pyfloat]
        | lra
        | apply Rgt_not_eq; assumption ].

(** Evaluate a float expression whose operations are all defined. *)
Ltac py_eval :=
  repeat first
    [ progress cbn [val add sub mul div neg pow np_log np_sqrt norm_cdf
                    lift1 lift2 bind]
    | rewrite pow_R_2
    | rewrite pow_R_3
    | rewrite pow_R_4
    | rewrite div_R_val by py_side
    | rewrite pow_R_pos by py_side
    | rewrite log_R_pos by py_side
    | rewrite sqrt_R_nonneg by py_side ].

(** ** Differentiation rules in pointwise form *)

Section Rules.

Variables (f g : R -> R) (x a b : R).
Hypothesis Hf : derivable_pt_lim f x a.
Hypothesis Hg : derivable_pt_lim g x b.

Lemma D_plus : derivable_pt_lim (fun y => f y + g y) x (a + b).
Proof. exact (derivable_pt_lim_plus f g x a b Hf Hg). Qed.

Lemma D_minus : derivable_pt_lim (fun y => f y - g y) x (a - b).
Proof. exact (derivable_pt_lim_minus f g x a b Hf Hg). Qed.

Lemma D_mult : derivable_pt_lim (fun y => f y * g y) x (a * g x + f x * b).
Proof. exact (derivable_pt_lim_mult f g x a b Hf Hg). Qed.

Lemma D_opp : derivable_pt_lim (fun y => - f y) x (- a).
Proof. exact (derivable_pt_lim_opp f x a Hf). Qed.

Lemma D_div :
  g x <> 0 -> derivable_pt_lim (fun y => f y / g y) x ((a * g x - b * f x) / Rsqr (g x)).
Proof. intro H. exact (derivable_pt_lim_div f g x a b Hf Hg H). Qed.

Lemma D_Rpower (e : R) :
  0 < f x -> derivable_pt_lim (fun y => Rpower (f y) e) x (e * Rpower (f x) (e - 1) * a).
Proof.
  intro H.
  exact (derivable_pt_lim_comp f (fun u => Rpower u e) x a _ Hf
           (derivable_pt_lim_power (f x) e H)).
Qed.

Lemma D_pow (n : nat) :
  derivable_pt_lim (fun y => f y ^ n) x (INR n * f x ^ pred n * a).
Proof.
  exact (derivable_pt_lim_comp f (fun u => u ^ n) x a _ Hf
           (derivable_pt_lim_pow (f x) n)).
Qed.

Lemma D_eq (l : R) : a = l -> derivable_pt_lim f x l.
Proof. intros <-. exact Hf. Qed.

End Rules.

Ltac D_step side :=
  first [ eassumption | apply derivable_pt_lim_const |
  lazymatch goal with
  | |- derivable_pt_lim (fun y => y) _ _ => apply derivable_pt_lim_id
  | |- derivable_pt_lim (fun y => @?u y + @?v y) ?x _ => eapply (D_plus u v x)
  | |- derivable_pt_lim (fun y => @?u y - @?v y) ?x _ => eapply (D_minus u v x)
  | |- derivable_pt_lim (fun y => @?u y * @?v y) ?x _ => eapply (D_mult u v x)
  | |- derivable_pt_lim (fun y => @?u y / @?v y) ?x _ =>
      eapply (D_div u v x); [ | | side]
  | |- derivable_pt_lim (fun y => - @?u y) ?x _ => eapply (D_opp u x)
  | |- derivable_pt_lim (fun y => Rpower (@?u y) ?e) ?x _ =>
      eapply (D_Rpower u x); [ | side]
  | |- derivable_pt_lim (fun y => @?u y ^ ?n) ?x _ => eapply (D_pow u x)
  end ].

Ltac D_auto side := eapply D_eq; [repeat D_step side | ].

(** ** The IRR annuity *)

Section IRR.

Variables K m N : R.
Hypothesis HK : 0 < K.
Hypothesis Hm : 0 < m.

Lemma base_gt_1 : 1 < 1 + K / m.
Proof. pose proof (Rdiv_lt_0_compat K m HK Hm). lra. Qed.

Lemma IRR_0_val : IRR_0 K m N = Some (Formula.IRR K m N).
Proof.
  pose proof base_gt_1 as Hb.
  unfold IRR_0, Formula.IRR. py_eval.
  rewrite Rpower_Ropp. f_equal. unfold Rdiv. ring.
Qed.

Lemma IRR_1_val : IRR_1 K m N = Some (Formula.IRR' K m N).
Proof.
  pose proof base_gt_1 as Hb.
  assert (HKm : K * m <> 0) by (apply Rgt_not_eq, Rmult_lt_0_compat; assumption).
  unfold IRR_1. rewrite IRR_0_val. unfold Formula.IRR'. py_eval.
  rewrite Rpower_Ropp. f_equal. unfold Rdiv. ring.
Qed.

Lemma IRR_2_val : IRR_2 K m N = Some (Formula.IRR'' K m N).
Proof.
  pose proof base_gt_1 as Hb.
  assert (HKm : K * m * m <> 0).
  { apply Rgt_not_eq. repeat apply Rmult_lt_0_compat; assumption. }
  unfold IRR_2. rewrite IRR_1_val. unfold Formula.IRR''. py_eval.
  rewrite Rpower_Ropp. f_equal. unfold Rdiv.
  replace (K * (m * m)) with (K * m * m) by ring. ring.
Qed.

Lemma IRR_derivable : derivable_pt_lim (fun x => Formula.IRR x m N) K (Formula.IRR' K m N).
Proof.
  pose proof base_gt_1 as Hb.
  unfold Formula.IRR', Formula.IRR.
  D_auto ltac:(first [assumption | lra]).
  cbv beta. replace (- (N * m) - 1) with (- (N * m + 1)) by ring.
  unfold Rsqr. field. lra.
Qed.

Lemma IRR'_derivable : derivable_pt_lim (fun x => Formula.IRR' x m N) K (Formula.IRR'' K m N).
Proof.
  pose proof base_gt_1 as Hb.
  assert (HKm : K * m <> 0) by (apply Rgt_not_eq, Rmult_lt_0_compat; assumption).
  unfold Formula.IRR'', Formula.IRR', Formula.IRR.
  D_auto ltac:(first [assumption | lra]).
  cbv beta.
  replace (- (N * m) - 1) with (- (N * m + 1)) by ring.
  replace (- (N * m + 1) - 1) with (- (N * m + 2)) by ring.
  unfold Rsqr. field. lra.
Qed.

Lemma IRR_bounds : 0 < N -> 0 < Formula.IRR K m N < 1 / K.
Proof.
  intro HN. pose proof base_gt_1 as Hb.
  assert (HNm : 0 < N * m) by (apply Rmult_lt_0_compat; assumption).
  assert (Hlt : Rpower (1 + K / m) (- (N * m)) < 1).
  { rewrite <- (Rpower_O (1 + K / m)) at 2 by lra.
    apply Rpower_lt; lra. }
  pose proof (Rpower_pos (1 + K / m) (- (N * m))) as Hp.
  assert (HiK : 0 < 1 / K) by (apply Rdiv_lt_0_compat; lra).
  unfold Formula.IRR. split; nra.
Qed.

End IRR.

(** C6.  For a strike [K > 0], a frequency [m >= 1] and [N >= 1] periods,
    [IRR_0 K m N] returns [(1/K) * (1 - (1 + K/m)^(-(N*m)))], which is
    strictly positive; and [IRR_0 K m N] tends to 0 as [K] tends to
    infinity. *)
Theorem IRR_0_positive_and_vanishing (m N : R) :
  1 <= m -> 1 <= N ->
  (forall K, 0 < K ->
     exists v, IRR_0 K m N = Some v /\
               v = (1 / K) * (1 - Rpower (1 + K / m) (- (N * m))) /\
               0 < v) /\
  (forall eps, 0 < eps ->
     exists M, forall K, M < K ->
       exists v, IRR_0 K m N = Some v /\ Rabs (v - 0) < eps).
Proof.
  intros Hm HN. split.
  - intros K HK. exists (Formula.IRR K m N).
    split; [apply IRR_0_val; lra|].
    split; [reflexivity|].
    apply IRR_bounds; lra.
  - intros eps Heps. exists (1 / eps). intros K HK.
    assert (Hie : 0 < 1 / eps) by (apply Rdiv_lt_0_compat; lra).
    assert (HK0 : 0 < K) by lra.
    exists (Formula.IRR K m N). split; [apply IRR_0_val; lra|].
    destruct (IRR_bounds K m N HK0 ltac:(lra) ltac:(lra)) as [Hlo Hhi].
    rewrite Rminus_0_r, Rabs_pos_eq by lra.
    apply Rlt_trans with (1 / K); [exact Hhi|].
    unfold Rdiv in *. rewrite Rmult_1_l in *.
    rewrite <- (Rinv_inv eps). apply Rinv_lt_contravar; [|exact HK].
    apply Rmult_lt_0_compat; lra.
Qed.

Lemma IRR_0_positive_and_vanishing_witness :
  1 <= 2 /\ 1 <= 10 /\
  (exists v, IRR_0 1 2 10 = Some v /\
             v = (1 / 1) * (1 - Rpower (1 + 1 / 2) (- (10 * 2))) /\ 0 < v).
Proof.
  split; [lra|]. split; [lra|].
  apply (proj1 (IRR_0_positive_and_vanishing 2 10 ltac:(lra) ltac:(lra)) 1); lra.
Defined.

(** ** The payoff [g] *)

Section Payoff.

Variable K : R.
Hypothesis HK : 0 < K.

Lemma g_0_val : g_0 K = Some (Formula.g 4 2 0.04 K).
Proof. unfold g_0, Formula.g. py_eval. reflexivity. Qed.

Lemma g_1_val : g_1 K = Some (Formula.g' 4 K).
Proof.
  unfold g_1, Formula.g'. py_eval.
  replace (-3 / 4) with (1 / 4 - 1) by lra. reflexivity.
Qed.

Lemma g_2_val : g_2 K = Some (Formula.g'' 4 K).
Proof.
  unfold g_2, Formula.g''. py_eval.
  replace (-7 / 4) with (1 / 4 - 2) by lra. f_equal. f_equal. lra.
Qed.

Lemma g_derivable (p q L0 : R) :
  derivable_pt_lim (fun x => Formula.g p q L0 x) K (Formula.g' p K).
Proof.
  unfold Formula.g, Formula.g'.
  D_auto ltac:(first [assumption | lra]). cbv beta. ring.
Qed.

Lemma g'_derivable (p : R) :
  derivable_pt_lim (fun x => Formula.g' p x) K (Formula.g'' p K).
Proof.
  unfold Formula.g', Formula.g''.
  D_auto ltac:(first [assumption | lra]). cbv beta.
  replace (1 / p - 1 - 1) with (1 / p - 2) by ring. ring.
Qed.

End Payoff.

(** ** The replication weights [h] *)

Section QuotientRule.

Variables (g0 g1 g2 i0 i1 i2 : R -> R) (x : R).
Hypothesis Dg0 : derivable_pt_lim g0 x (g1 x).
Hypothesis Dg1 : derivable_pt_lim g1 x (g2 x).
Hypothesis Di0 : derivable_pt_lim i0 x (i1 x).
Hypothesis Di1 : derivable_pt_lim i1 x (i2 x).
Hypothesis Hi : i0 x <> 0.

Lemma quotient_derivable :
  derivable_pt_lim (fun y => g0 y / i0 y) x
    ((i0 x * g1 x - g0 x * i1 x) / i0 x ^ 2).
Proof.
  D_auto ltac:(assumption). cbv beta. unfold Rsqr. field. exact Hi.
Qed.

Lemma quotient'_derivable :
  derivable_pt_lim (fun y => (i0 y * g1 y - g0 y * i1 y) / i0 y ^ 2) x
    ((i0 x * g2 x - i2 x * g0 x - 2 * i1 x * g1 x) / i0 x ^ 2
     + 2 * i1 x ^ 2 * g0 x / i0 x ^ 3).
Proof.
  assert (H2 : i0 x ^ 2 <> 0) by (apply pow_nonzero; exact Hi).
  D_auto ltac:(assumption). cbv beta. unfold Rsqr. simpl. field. exact Hi.
Qed.

End QuotientRule.

Section Weights.

Variables K m N : R.
Hypothesis HK : 0 < K.
Hypothesis Hm : 0 < m.
Hypothesis HN : 0 < N.

Lemma IRR_neq_0 : Formula.IRR K m N <> 0.
Proof. apply Rgt_not_eq. apply IRR_bounds; assumption. Qed.

Lemma h_0_val : h_0 K m N = Some (Formula.h 4 2 0.04 K m N).
Proof.
  pose proof IRR_neq_0 as Hi.
  unfold h_0. rewrite g_0_val, IRR_0_val by assumption.
  py_eval. reflexivity.
Qed.

Lemma h_1_val : h_1 K m N = Some (Formula.h' 4 2 0.04 K m N).
Proof.
  pose proof IRR_neq_0 as Hi.
  assert (H2 : Formula.IRR K m N ^ 2 <> 0) by (apply pow_nonzero; exact Hi).
  unfold h_1. rewrite g_0_val, g_1_val, IRR_0_val, IRR_1_val by assumption.
  py_eval. reflexivity.
Qed.

Lemma h_2_val : h_2 K m N = Some (Formula.h'' 4 2 0.04 K m N).
Proof.
  pose proof IRR_neq_0 as Hi.
  assert (H2 : Formula.IRR K m N ^ 2 <> 0) by (apply pow_nonzero; exact Hi).
  assert (H3 : Formula.IRR K m N ^ 3 <> 0) by (apply pow_nonzero; exact Hi).
  unfold h_2.
  rewrite g_0_val, g_1_val, g_2_val, IRR_0_val, IRR_1_val, IRR_2_val by assumption.
  py_eval. reflexivity.
Qed.

Lemma h_derivable (p q L0 : R) :
  derivable_pt_lim (fun x => Formula.h p q L0 x m N) K (Formula.h' p q L0 K m N).
Proof.
  apply (quotient_derivable (Formula.g p q L0) (Formula.g' p)
           (fun x => Formula.IRR x m N) (fun x => Formula.IRR' x m N)).
  - apply g_derivable; assumption.
  - apply IRR_derivable; assumption.
  - exact IRR_neq_0.
Qed.

Lemma h'_derivable (p q L0 : R) :
  derivable_pt_lim (fun x => Formula.h' p q L0 x m N) K (Formula.h'' p q L0 K m N).
Proof.
  apply (quotient'_derivable (Formula.g p q L0) (Formula.g' p) (Formula.g'' p)
           (fun x => Formula.IRR x m N) (fun x => Formula.IRR' x m N)
           (fun x => Formula.IRR'' x m N)).
  - apply g_derivable; assumption.
  - apply g'_derivable; assumption.
  - apply IRR_derivable; assumption.
  - apply IRR'_derivable; assumption.
  - exact IRR_neq_0.
Qed.

End Weights.

(** C5.  For a frequency [m >= 1] and [N >= 1] periods, on the positive
    strikes [h_1] is the derivative of [h_0] and [h_2] the derivative of
    [h_1]; likewise [IRR_1], [IRR_2] are the first and second derivatives of
    [IRR_0], and [g_1], [g_2] those of [g_0]. *)
Theorem h_derivatives_consistent (m N : R) :
  1 <= m -> 1 <= N ->
  derivative_on_pos (fun K => h_0 K m N) (fun K => h_1 K m N) /\
  derivative_on_pos (fun K => h_1 K m N) (fun K => h_2 K m N) /\
  derivative_on_pos (fun K => IRR_0 K m N) (fun K => IRR_1 K m N) /\
  derivative_on_pos (fun K => IRR_1 K m N) (fun K => IRR_2 K m N) /\
  derivative_on_pos g_0 g_1 /\
  derivative_on_pos g_1 g_2.
Proof.
  intros Hm HN.
  assert (Hm0 : 0 < m) by lra. assert (HN0 : 0 < N) by lra.
  repeat split.
  - exists (fun K => Formula.h 4 2 0.04 K m N), (fun K => Formula.h' 4 2 0.04 K m N).
    intros K HK. split; [apply h_0_val; assumption|].
    split; [apply h_1_val; assumption|]. apply h_derivable; assumption.
  - exists (fun K => Formula.h' 4 2 0.04 K m N), (fun K => Formula.h'' 4 2 0.04 K m N).
    intros K HK. split; [apply h_1_val; assumption|].
    split; [apply h_2_val; assumption|]. apply h'_derivable; assumption.
  - exists (fun K => Formula.IRR K m N), (fun K => Formula.IRR' K m N).
    intros K HK. split; [apply IRR_0_val; assumption|].
    split; [apply IRR_1_val; assumption|]. apply IRR_derivable; assumption.
  - exists (fun K => Formula.IRR' K m N), (fun K => Formula.IRR'' K m N).
    intros K HK. split; [apply IRR_1_val; assumption|].
    split; [apply IRR_2_val; assumption|]. apply IRR'_derivable; assumption.
  - exists (Formula.g 4 2 0.04), (Formula.g' 4).
    intros K HK. split; [apply g_0_val; assumption|].
    split; [apply g_1_val; assumption|]. apply g_derivable; assumption.
  - exists (Formula.g' 4), (Formula.g'' 4).
    intros K HK. split; [apply g_1_val; assumption|].
    split; [apply g_2_val; assumption|]. apply g'_derivable; assumption.
Qed.

Lemma h_derivatives_consistent_witness :
  1 <= 2 /\ 1 <= 10 /\
  derivative_on_pos (fun K => h_0 K 2 10) (fun K => h_1 K 2 10) /\
  derivative_on_pos (fun K => h_1 K 2 10) (fun K => h_2 K 2 10).
Proof.
  split; [lra|]. split; [lra|].
  pose proof (h_derivatives_consistent 2 10 ltac:(lra) ltac:(lra)) as H.
  split; [exact (proj1 H)|exact (proj1 (proj2 H))].
Defined.

(** ** Black76 and the swaptions *)

Section Black76.

Variables F K sigma T : R.
Hypothesis HF : 0 < F.
Hypothesis HK : 0 < K.
Hypothesis Hsigma : sigma <> 0.
Hypothesis HT : 0 < T.

Lemma vol_sqrt_neq_0 : sigma * sqrt T <> 0.
Proof.
  apply Rmult_integral_contrapositive_currified; [exact Hsigma|].
  apply Rgt_not_eq, sqrt_lt_R0, HT.
Qed.

Lemma Black76Call_val : Black76Call F K sigma T = Some (Formula.Black76Call F K sigma T).
Proof.
  pose proof vol_sqrt_neq_0 as Hv.
  assert (HFK : 0 < F / K) by (apply Rdiv_lt_0_compat; assumption).
  unfold Black76Call, Formula.Black76Call, Formula.d1, Formula.d2. py_eval. reflexivity.
Qed.

Lemma Black76Put_val : Black76Put F K sigma T = Some (Formula.Black76Put F K sigma T).
Proof.
  pose proof vol_sqrt_neq_0 as Hv.
  assert (HFK : 0 < F / K) by (apply Rdiv_lt_0_compat; assumption).
  unfold Black76Put, Formula.Black76Put, Formula.d1, Formula.d2. py_eval. reflexivity.
Qed.

End Black76.

Lemma Black76_parity (F K sigma T : R) :
  Formula.Black76Call F K sigma T - Formula.Black76Put F K sigma T = F - K.
Proof.
  unfold Formula.Black76Call, Formula.Black76Put.
  pose proof (NormalFacts.cdf_opp (Formula.d1 F K sigma T)) as H1.
  pose proof (NormalFacts.cdf_opp (Formula.d2 F K sigma T)) as H2.
  nra.
Qed.

(** C4.  Put-call parity: for [F], [K], [sigma], [T] all positive, both
    prices are returned and the call price minus the put price is
    [F - K]. *)
Theorem put_call_parity (F K sigma T : R) :
  0 < F -> 0 < K -> 0 < sigma -> 0 < T ->
  exists c p,
    Black76Call F K sigma T = Some c /\
    Black76Put F K sigma T = Some p /\
    c - p = F - K.
Proof.
  intros HF HK Hs HT.
  exists (Formula.Black76Call F K sigma T), (Formula.Black76Put F K sigma T).
  split; [apply Black76Call_val; lra|].
  split; [apply Black76Put_val; lra|].
  apply Black76_parity.
Qed.

Lemma put_call_parity_witness :
  0 < 1 /\ 0 < 2 /\ 0 < 1 / 2 /\ 0 < 5 /\
  exists c p,
    Black76Call 1 2 (1 / 2) 5 = Some c /\
    Black76Put 1 2 (1 / 2) 5 = Some p /\
    c - p = 1 - 2.
Proof.
  repeat (split; [lra|]).
  apply (put_call_parity 1 2 (1 / 2) 5); lra.
Defined.

(** C10.  With the strike at the forward, the payer and the receiver
    swaption have the same result, for every discount, frequency and number
    of periods; for a positive frequency that result is a value. *)
Theorem payer_receiver_at_the_money (discount F sigma T m N : R) :
  0 < F -> 0 < sigma -> 0 < T ->
  payer_swaption discount F F sigma T m N
  = receiver_swaption discount F F sigma T m N /\
  (0 < m -> exists v, payer_swaption discount F F sigma T m N = Some v).
Proof.
  intros HF Hs HT.
  assert (Hs' : sigma <> 0) by lra.
  pose proof (Black76_parity F F sigma T) as Hp.
  assert (Heq : Formula.Black76Call F F sigma T = Formula.Black76Put F F sigma T) by lra.
  unfold payer_swaption, receiver_swaption.
  rewrite Black76Call_val, Black76Put_val, Heq by assumption.
  split; [reflexivity|].
  intro Hm. rewrite IRR_0_val by assumption. py_eval. eexists. reflexivity.
Qed.

Lemma payer_receiver_at_the_money_witness :
  0 < 1 /\ 0 < 1 / 2 /\ 0 < 5 /\
  payer_swaption 1 1 1 (1 / 2) 5 2 10 = receiver_swaption 1 1 1 (1 / 2) 5 2 10.
Proof.
  repeat (split; [lra|]).
  apply (payer_receiver_at_the_money 1 1 (1 / 2) 5 2 10); lra.
Defined.

(** ** The SABR volatility *)

Section Chi.

Variables rho z : R.
Hypothesis Hrho : -1 < rho < 1.

Let s := sqrt (1 - 2 * rho * z + z ^ 2).

Lemma chi_radicand_pos : 0 < 1 - 2 * rho * z + z ^ 2.
Proof.
  assert (H1 : rho * rho < 1) by nra.
  replace (1 - 2 * rho * z + z ^ 2) with ((z - rho) * (z - rho) + (1 - rho * rho))
    by ring.
  pose proof (Rle_0_sqr (z - rho)) as H2. unfold Rsqr in H2. lra.
Qed.

Lemma chi_sqrt_spec : 0 < s /\ s * s = 1 - 2 * rho * z + z ^ 2.
Proof.
  pose proof chi_radicand_pos as Hp. unfold s. split.
  - apply sqrt_lt_R0. exact Hp.
  - apply sqrt_sqrt. lra.
Qed.

Lemma chi_arg_pos : 0 < (s + z - rho) / (1 - rho).
Proof.
  destruct chi_sqrt_spec as [Hs Hss].
  apply Rdiv_lt_0_compat; [|lra].
  destruct (Rlt_dec 0 (s + z - rho)) as [H | H]; [exact H|].
  exfalso. nra.
Qed.

Lemma chi_arg_gt_1 : 0 < z -> 1 < (s + z - rho) / (1 - rho).
Proof.
  intro Hz. destruct chi_sqrt_spec as [Hs Hss].
  assert (H : 1 - rho < s + z - rho).
  { destruct (Rlt_dec (1 - rho) (s + z - rho)) as [H | H]; [exact H|].
    exfalso. nra. }
  apply Rmult_lt_reg_r with (1 - rho); [lra|].
  unfold Rdiv. rewrite Rmult_assoc, Rinv_l by lra. lra.
Qed.

Lemma chi_arg_lt_1 : z < 0 -> (s + z - rho) / (1 - rho) < 1.
Proof.
  intro Hz. destruct chi_sqrt_spec as [Hs Hss].
  assert (H : s + z - rho < 1 - rho).
  { destruct (Rlt_dec (s + z - rho) (1 - rho)) as [H | H]; [exact H|].
    exfalso. nra. }
  apply Rmult_lt_reg_r with (1 - rho); [lra|].
  unfold Rdiv. rewrite Rmult_assoc, Rinv_l by lra. lra.
Qed.

Lemma chi_pos : 0 < z -> 0 < Formula.sabr_chi rho z.
Proof.
  intro Hz. unfold Formula.sabr_chi. fold s.
  rewrite <- ln_1. apply ln_increasing; [lra|]. apply chi_arg_gt_1, Hz.
Qed.

Lemma chi_neg : z < 0 -> Formula.sabr_chi rho z < 0.
Proof.
  intro Hz. unfold Formula.sabr_chi. fold s.
  rewrite <- ln_1. apply ln_increasing; [apply chi_arg_pos|].
  apply chi_arg_lt_1, Hz.
Qed.

(** The ratio [z / chi z] is positive away from the money. *)
Lemma z_over_chi_pos : z <> 0 -> 0 < z / Formula.sabr_chi rho z.
Proof.
  intro Hz. destruct (Rlt_dec 0 z) as [Hp | Hn].
  - apply Rdiv_lt_0_compat; [exact Hp|apply chi_pos, Hp].
  - assert (Hneg : z < 0) by lra.
    pose proof (chi_neg Hneg) as Hc.
    replace (z / Formula.sabr_chi rho z) with ((- z) / (- Formula.sabr_chi rho z))
      by (field; lra).
    apply Rdiv_lt_0_compat; lra.
Qed.

Lemma chi_neq_0 : z <> 0 -> Formula.sabr_chi rho z <> 0.
Proof.
  intro Hz. destruct (Rlt_dec 0 z) as [Hp | Hn].
  - apply Rgt_not_eq, chi_pos, Hp.
  - apply Rlt_not_eq, chi_neg. lra.
Qed.

End Chi.

Lemma chi_val (rho z : R) :
  -1 < rho < 1 ->
  (np_log ((((val 1 - val 2 * val rho * val z + val z * val z) ** val 0.5)
            + val z - val rho) / (val 1 - val rho)))%py
  = Some (Formula.sabr_chi rho z).
Proof.
  intro Hrho.
  pose proof (chi_radicand_pos rho z Hrho) as Hp.
  pose proof (chi_arg_pos rho z Hrho) as Ha.
  replace (z ^ 2) with (z * z) in Hp, Ha by ring.
  rewrite <- Rpower_sqrt in Ha by exact Hp.
  replace (/ 2) with 0.5 in Ha by lra.
  py_eval. unfold Formula.sabr_chi.
  replace (z ^ 2) with (z * z) by ring.
  rewrite <- Rpower_sqrt by exact Hp.
  replace (/ 2) with 0.5 by lra. reflexivity.
Qed.

Section SABR.

Variables F K T alpha beta rho nu : R.
Hypothesis HF : 0 < F.

Lemma SABR_atm_val :
  Rabs (F - K) < 1e-12 ->
  SABR F K T alpha beta rho nu = Some (Formula.sabr_atm F T alpha beta rho nu).
Proof.
  intro Hb. unfold SABR. destruct (Rlt_dec _ _) as [_ | Hn]; [|contradiction].
  cbv zeta. py_eval.
  unfold Formula.sabr_atm, Formula.sabr_atm_factor, Formula.sabr_term1,
    Formula.sabr_term2, Formula.sabr_term3.
  f_equal. field. split; apply Rpower_neq_0.
Qed.

Hypothesis HK : 0 < K.
Hypothesis Halpha : 0 < alpha.
Hypothesis Hnu : 0 < nu.
Hypothesis Hrho : -1 < rho < 1.
Hypothesis HFK : F <> K.

Lemma sabr_z_neq_0 : Formula.sabr_z F K alpha beta nu <> 0.
Proof.
  unfold Formula.sabr_z.
  assert (Hl : ln (F / K) <> 0).
  { apply ln_neq_0; [|apply Rdiv_lt_0_compat; assumption].
    intro E. apply HFK.
    apply (Rmult_eq_compat_r K) in E. unfold Rdiv in E.
    rewrite Rmult_assoc, Rinv_l, Rmult_1_r, Rmult_1_l in E by lra. exact E. }
  assert (Hq : nu / alpha <> 0).
  { apply Rgt_not_eq, Rdiv_lt_0_compat; assumption. }
  apply Rmult_integral_contrapositive_currified; [|exact Hl].
  apply Rmult_integral_contrapositive_currified; [exact Hq|apply Rpower_neq_0].
Qed.

Lemma sabr_denom_sign :
  0 < Formula.sabr_z F K alpha beta nu / Formula.sabr_denom F K alpha beta rho nu.
Proof.
  pose proof (z_over_chi_pos rho _ Hrho sabr_z_neq_0) as Hzc.
  pose proof (chi_neq_0 rho _ Hrho sabr_z_neq_0) as Hc.
  unfold Formula.sabr_denom.
  set (z := Formula.sabr_z F K alpha beta nu) in *.
  set (P := Rpower (F * K) ((1 - beta) / 2)).
  assert (HP : 0 < P) by apply Rpower_pos.
  assert (Hd : 0 < 1 + Formula.sabr_denom1 F K beta + Formula.sabr_denom2 F K beta).
  { unfold Formula.sabr_denom1, Formula.sabr_denom2.
    pose proof (pow2_ge_0 (1 - beta)). pose proof (pow2_ge_0 (ln (F / K))).
    pose proof (pow2_ge_0 ((1 - beta) ^ 2)). pose proof (pow2_ge_0 (ln (F / K) ^ 2)).
    replace ((1 - beta) ^ 4) with (((1 - beta) ^ 2) ^ 2) by ring.
    replace (ln (F / K) ^ 4) with ((ln (F / K) ^ 2) ^ 2) by ring.
    assert (0 <= (1 - beta) ^ 2 / 24 * ln (F / K) ^ 2).
    { apply Rmult_le_pos; lra. }
    assert (0 <= ((1 - beta) ^ 2) ^ 2 / 1920 * (ln (F / K) ^ 2) ^ 2).
    { apply Rmult_le_pos; lra. }
    lra. }
  set (d := 1 + _ + _) in *.
  replace (z / (P * d * Formula.sabr_chi rho z))
    with (z / Formula.sabr_chi rho z * / (P * d)) by (field; repeat split; lra).
  apply Rmult_lt_0_compat; [exact Hzc|].
  apply Rinv_0_lt_compat, Rmult_lt_0_compat; assumption.
Qed.

Lemma sabr_denom_neq_0 : Formula.sabr_denom F K alpha beta rho nu <> 0.
Proof.
  pose proof sabr_denom_sign as H. intro E. rewrite E in H.
  unfold Rdiv in H. rewrite Rinv_0, Rmult_0_r in H. lra.
Qed.

Lemma SABR_general_val :
  ~ Rabs (F - K) < 1e-12 ->
  SABR F K T alpha beta rho nu = Some (Formula.sabr_general F K T alpha beta rho nu).
Proof.
  intro Hb. unfold SABR. destruct (Rlt_dec _ _) as [Hn | _]; [contradiction|].
  cbv zeta.
  assert (HFK' : 0 < F * K) by (apply Rmult_lt_0_compat; assumption).
  assert (HFdK : 0 < F / K) by (apply Rdiv_lt_0_compat; assumption).
  assert (Hz : (val nu / val alpha * (val F * val K) ** (val 0.5 * (val 1 - val beta))
                * np_log (val F / val K))%py
               = val (Formula.sabr_z F K alpha beta nu)).
  { py_eval. unfold Formula.sabr_z.
    replace (0.5 * (1 - beta)) with ((1 - beta) / 2) by lra. reflexivity. }
  rewrite Hz, (chi_val rho _ Hrho).
  pose proof sabr_denom_neq_0 as Hd.
  py_eval.
  unfold Formula.sabr_general, Formula.sabr_factor, Formula.sabr_numer1,
    Formula.sabr_numer2, Formula.sabr_term3.
  f_equal. apply (f_equal2 Rdiv); [unfold Rdiv; ring|reflexivity].
Qed.

End SABR.

Lemma Rpower_base_1 (y : R) : Rpower 1 y = 1.
Proof. unfold Rpower. rewrite ln_1, Rmult_0_r. apply exp_0. Qed.

Lemma Rpower_half (x r : R) : 0 <= r -> r * r = x -> 0 < x -> Rpower x (1 / 2) = r.
Proof.
  intros Hr Hx Hp. replace (1 / 2) with (/ 2) by lra.
  rewrite Rpower_sqrt by exact Hp. apply sqrt_lem_1; lra.
Qed.

Lemma not_near_neq (F K : R) : ~ Rabs (F - K) < 1e-12 -> F <> K.
Proof.
  intros Hb E. apply Hb. rewrite E, Rminus_diag, Rabs_R0. lra.
Qed.

(** C3, as stated, fails away from the money: at [F = 1], [K = 4], [T = 1],
    [alpha = 1], [beta = 1/2], [rho = 0], [nu = 1] the test [|F - K| < 1e-12]
    is false and the value returned differs from the general formula taken
    with the at-the-money correction terms. *)
Lemma SABR_general_not_atm_terms :
  ~ Rabs (1 - 4) < 1e-12 /\
  exists v, SABR 1 4 1 1 (1 / 2) 0 1 = Some v /\
            v <> Formula.sabr_general_atm_terms 1 4 1 1 (1 / 2) 0 1.
Proof.
  assert (Hb : ~ Rabs (1 - 4) < 1e-12).
  { intro H. apply Rabs_def2 in H. lra. }
  split; [exact Hb|].
  exists (Formula.sabr_general 1 4 1 1 (1 / 2) 0 1).
  split.
  { apply SABR_general_val; try lra. }
  pose proof (sabr_denom_sign 1 4 1 (1 / 2) 0 1) as Hs.
  assert (Hw : 0 < Formula.sabr_z 1 4 1 (1 / 2) 1 / Formula.sabr_denom 1 4 1 (1 / 2) 0 1).
  { apply Hs; lra. }
  unfold Formula.sabr_general, Formula.sabr_general_atm_terms.
  set (z := Formula.sabr_z 1 4 1 (1 / 2) 1) in *.
  set (d := Formula.sabr_denom 1 4 1 (1 / 2) 0 1) in *.
  assert (Hf : Formula.sabr_factor 1 4 1 1 (1 / 2) 0 1 = 1 + (1 / 192 + 1 / 12)).
  { unfold Formula.sabr_factor, Formula.sabr_numer1, Formula.sabr_numer2,
      Formula.sabr_term3.
    replace (1 * 4) with 4 by lra. replace (1 - 1 / 2) with (1 / 2) by lra.
    rewrite (Rpower_half 4 2) by lra. field.
    apply Rpower_neq_0. }
  assert (Ha : Formula.sabr_atm_factor 1 1 1 (1 / 2) 0 1 = 1 + (1 / 96 + 1 / 12)).
  { unfold Formula.sabr_atm_factor, Formula.sabr_term1, Formula.sabr_term2,
      Formula.sabr_term3.
    rewrite !Rpower_base_1. field. }
  rewrite Hf, Ha. intro E.
  assert (E' : (1 + (1 / 192 + 1 / 12)) * (z / d) = (1 + (1 / 96 + 1 / 12)) * (z / d)).
  { unfold Rdiv in *. lra. }
  nra.
Qed.

(** C3, amended.  For positive [F], [K], [alpha], [nu] and [|rho| < 1]: when
    [|F - K| < 1e-12], [SABR] returns the at-the-money closed form
    [alpha * (1 + (term1 + term2 + term3) * T) / F^(1 - beta)]; otherwise it
    returns the general formula, whose first two correction terms are in
    powers of [F * K]: [((1 - beta)^2 / 24) * alpha^2 / (F K)^(1 - beta)] and
    [0.25 * rho * beta * nu * alpha / (F K)^((1 - beta) / 2)]. *)
Theorem SABR_branches (F K T alpha beta rho nu : R) :
  0 < F -> 0 < K -> 0 < alpha -> 0 < nu -> -1 < rho < 1 ->
  (Rabs (F - K) < 1e-12 ->
   SABR F K T alpha beta rho nu = Some (Formula.sabr_atm F T alpha beta rho nu)) /\
  (~ Rabs (F - K) < 1e-12 ->
   SABR F K T alpha beta rho nu = Some (Formula.sabr_general F K T alpha beta rho nu)).
Proof.
  intros HF HK Ha Hn Hr. split; intro Hb.
  - apply SABR_atm_val; assumption.
  - apply SABR_general_val; try assumption. apply not_near_neq, Hb.
Qed.

Lemma SABR_branches_witness :
  0 < 1 /\ 0 < 4 /\ 0 < 1 /\ 0 < 1 /\ -1 < 0 < 1 /\
  (~ Rabs (1 - 4) < 1e-12 ->
   SABR 1 4 1 1 (1 / 2) 0 1 = Some (Formula.sabr_general 1 4 1 1 (1 / 2) 0 1)).
Proof.
  repeat (split; [lra|]).
  apply (SABR_branches 1 4 1 1 (1 / 2) 0 1); lra.
Defined.

(** C7, as stated, fails: at the money with [F = K = 1], [T = 5],
    [alpha = 1], [beta = 0.9], [rho = -0.9], [nu = 2], all within the valid
    ranges, the volatility returned is [-221/160]. *)
Lemma SABR_negative_at_the_money :
  0 < 0.9 <= 1 /\ Rabs (- 0.9) < 1 /\
  SABR 1 1 5 1 0.9 (- 0.9) 2 = Some (- (221 / 160)) /\
  ~ 0 < - (221 / 160).
Proof.
  split; [lra|]. split; [apply Rabs_def1; lra|].
  split; [|lra].
  rewrite SABR_atm_val.
  - f_equal.
    unfold Formula.sabr_atm, Formula.sabr_atm_factor, Formula.sabr_term1,
      Formula.sabr_term2, Formula.sabr_term3.
    rewrite !Rpower_base_1. lra.
  - lra.
  - rewrite Rminus_diag, Rabs_R0. lra.
Qed.

Section SABRSign.

Variables F K T alpha beta rho nu : R.
Hypothesis HF : 0 < F.
Hypothesis HK : 0 < K.
Hypothesis HT : 0 < T.
Hypothesis Hbeta : 0 < beta <= 1.
Hypothesis Hrho : -1 < rho < 1.
Hypothesis Halpha : 0 < alpha.
Hypothesis Hnu : 0 < nu.

Lemma sabr_atm_sign :
  0 < Formula.sabr_atm F T alpha beta rho nu
  <-> 0 < Formula.sabr_atm_factor F T alpha beta rho nu.
Proof.
  unfold Formula.sabr_atm.
  set (f := Formula.sabr_atm_factor F T alpha beta rho nu).
  pose proof (Rpower_pos F (1 - beta)) as HP.
  assert (Hi : 0 < / Rpower F (1 - beta)) by (apply Rinv_0_lt_compat, HP).
  unfold Rdiv. split; intro H.
  - destruct (Rlt_dec 0 f) as [Hf | Hf]; [exact Hf|]. exfalso.
    assert (alpha * f <= 0) by nra. nra.
  - apply Rmult_lt_0_compat; [apply Rmult_lt_0_compat; assumption|exact Hi].
Qed.

Lemma sabr_general_sign :
  F <> K ->
  0 < Formula.sabr_general F K T alpha beta rho nu
  <-> 0 < Formula.sabr_factor F K T alpha beta rho nu.
Proof.
  intro HFK. unfold Formula.sabr_general.
  set (f := Formula.sabr_factor F K T alpha beta rho nu).
  pose proof (sabr_denom_sign F K alpha beta rho nu HF HK Halpha Hnu Hrho HFK) as Hw.
  replace (alpha * f * Formula.sabr_z F K alpha beta nu
           / Formula.sabr_denom F K alpha beta rho nu)
    with (alpha * f * (Formula.sabr_z F K alpha beta nu
                       / Formula.sabr_denom F K alpha beta rho nu))
    by (unfold Rdiv; ring).
  set (w := _ / _) in *. split; intro H.
  - destruct (Rlt_dec 0 f) as [Hf | Hf]; [exact Hf|]. exfalso.
    assert (alpha * f <= 0) by nra. nra.
  - apply Rmult_lt_0_compat; [apply Rmult_lt_0_compat; assumption|exact Hw].
Qed.

Lemma sabr_term3_nonneg : 3 * rho ^ 2 <= 2 -> 0 <= Formula.sabr_term3 rho nu.
Proof.
  intro H. unfold Formula.sabr_term3.
  pose proof (pow2_ge_0 nu). apply Rmult_le_pos; lra.
Qed.

Lemma sabr_atm_factor_pos :
  0 <= rho -> 3 * rho ^ 2 <= 2 -> 0 < Formula.sabr_atm_factor F T alpha beta rho nu.
Proof.
  intros Hr0 Hr2. unfold Formula.sabr_atm_factor.
  pose proof (sabr_term3_nonneg Hr2) as H3.
  assert (H1 : 0 <= Formula.sabr_term1 F alpha beta).
  { unfold Formula.sabr_term1.
    pose proof (pow2_ge_0 (1 - beta)). pose proof (pow2_ge_0 alpha).
    pose proof (Rpower_pos F (2 - 2 * beta)).
    apply Rmult_le_pos; [apply Rmult_le_pos; lra|].
    left. apply Rinv_0_lt_compat. assumption. }
  assert (H2 : 0 <= Formula.sabr_term2 F alpha beta rho nu).
  { unfold Formula.sabr_term2.
    pose proof (Rpower_pos F (1 - beta)).
    apply Rmult_le_pos; [|left; apply Rinv_0_lt_compat; assumption].
    assert (Ha : 0 <= rho * beta) by (apply Rmult_le_pos; lra).
    assert (Hb : 0 <= rho * beta * nu) by (apply Rmult_le_pos; lra).
    assert (Hc : 0 <= rho * beta * nu * alpha) by (apply Rmult_le_pos; lra).
    lra. }
  nra.
Qed.

Lemma sabr_factor_pos :
  0 <= rho -> 3 * rho ^ 2 <= 2 -> 0 < Formula.sabr_factor F K T alpha beta rho nu.
Proof.
  intros Hr0 Hr2. unfold Formula.sabr_factor.
  pose proof (sabr_term3_nonneg Hr2) as H3.
  assert (H1 : 0 <= Formula.sabr_numer1 F K alpha beta).
  { unfold Formula.sabr_numer1.
    pose proof (pow2_ge_0 (1 - beta)). pose proof (pow2_ge_0 alpha).
    pose proof (Rpower_pos (F * K) (1 - beta)).
    apply Rmult_le_pos; [lra|]. apply Rmult_le_pos; [lra|].
    left. apply Rinv_0_lt_compat. assumption. }
  assert (H2 : 0 <= Formula.sabr_numer2 F K alpha beta rho nu).
  { unfold Formula.sabr_numer2.
    pose proof (Rpower_pos (F * K) ((1 - beta) / 2)).
    apply Rmult_le_pos; [|left; apply Rinv_0_lt_compat; assumption].
    assert (Ha : 0 <= rho * beta) by (apply Rmult_le_pos; lra).
    assert (Hb : 0 <= rho * beta * nu) by (apply Rmult_le_pos; lra).
    assert (Hc : 0 <= rho * beta * nu * alpha) by (apply Rmult_le_pos; lra).
    lra. }
  nra.
Qed.

End SABRSign.

(** C7, amended.  For [F], [K], [T] positive, [0 < beta <= 1], [|rho| < 1],
    [alpha] and [nu] positive, [SABR] returns a value, and the value is
    strictly positive exactly when the correction factor
    [1 + (numer1 + numer2 + numer3) * T] of the branch taken is; that is so
    whenever [rho >= 0] and [3 * rho^2 <= 2]. *)
Theorem SABR_positive_iff_factor (F K T alpha beta rho nu : R) :
  0 < F -> 0 < K -> 0 < T -> 0 < beta <= 1 -> Rabs rho < 1 ->
  0 < alpha -> 0 < nu ->
  exists v,
    SABR F K T alpha beta rho nu = Some v /\
    (0 < v <-> 0 < Formula.sabr_branch_factor F K T alpha beta rho nu) /\
    (0 <= rho -> 3 * rho ^ 2 <= 2 -> 0 < v).
Proof.
  intros HF HK HT Hb Hr Ha Hn.
  assert (Hr' : -1 < rho < 1) by (apply Rabs_def2 in Hr; lra).
  unfold Formula.sabr_branch_factor.
  destruct (Rlt_dec (Rabs (F - K)) 1e-12) as [Hnear | Hfar].
  - exists (Formula.sabr_atm F T alpha beta rho nu).
    split; [apply SABR_atm_val; assumption|].
    pose proof (sabr_atm_sign F T alpha beta rho nu Ha) as Hs.
    split; [exact Hs|].
    intros H0 H2. apply Hs. apply sabr_atm_factor_pos; assumption.
  - pose proof (not_near_neq F K Hfar) as HFK.
    exists (Formula.sabr_general F K T alpha beta rho nu).
    split; [apply SABR_general_val; assumption|].
    pose proof (sabr_general_sign F K T alpha beta rho nu HF HK Hr' Ha Hn HFK) as Hs.
    split; [exact Hs|].
    intros H0 H2. apply Hs. apply sabr_factor_pos; assumption.
Qed.

Lemma SABR_positive_iff_factor_witness :
  0 < 1 /\ 0 < 4 /\ 0 < 5 /\ 0 < 0.9 <= 1 /\ Rabs 0 < 1 /\ 0 < 1 /\ 0 < 2 /\
  exists v,
    SABR 1 4 5 1 0.9 0 2 = Some v /\
    (0 < v <-> 0 < Formula.sabr_branch_factor 1 4 5 1 0.9 0 2) /\
    (0 <= 0 -> 3 * 0 ^ 2 <= 2 -> 0 < v).
Proof.
  repeat (split; [first [lra | rewrite Rabs_R0; lra]|]).
  apply (SABR_positive_iff_factor 1 4 5 1 0.9 0 2);
    first [lra | rewrite Rabs_R0; lra].
Defined.

(** ** The payoff configuration *)

Lemma Rpower_quarter (x r : R) :
  0 <= r -> r * r * (r * r) = x -> 0 < x -> Rpower x (1 / 4) = r.
Proof.
  intros Hr Hx Hp.
  replace (1 / 4) with (1 / 2 * (1 / 2)) by lra.
  rewrite <- Rpower_mult.
  assert (Hrr : 0 < r * r) by nra.
  rewrite (Rpower_half x (r * r)) by nra.
  apply Rpower_half; nra.
Qed.

Lemma Rpower_004_half : Rpower 0.04 (1 / 2) = 0.2.
Proof. apply Rpower_half; lra. Qed.

(** C9, as stated, fails: [g_0] has the strike as its only parameter and
    evaluates the payoff with the exponents 4 and 2.  At [K = 16] it returns
    [1.8], while the payoff with [p = 2], [q = 2] is [3.8]. *)
Lemma g_0_exponents_fixed :
  g_0 16 = Some 1.8 /\
  Formula.g 2 2 0.04 16 = 3.8 /\
  g_0 16 <> Some (Formula.g 2 2 0.04 16).
Proof.
  assert (H1 : g_0 16 = Some 1.8).
  { rewrite g_0_val by lra. unfold Formula.g.
    rewrite (Rpower_quarter 16 2), Rpower_004_half by lra. f_equal. lra. }
  assert (H2 : Formula.g 2 2 0.04 16 = 3.8).
  { unfold Formula.g. rewrite (Rpower_half 16 4), Rpower_004_half by lra. lra. }
  split; [exact H1|]. split; [exact H2|].
  rewrite H1, H2. intro E. injection E as E. lra.
Qed.

(** C9, amended.  The payoff functions take the strike only; on a positive
    strike they evaluate [g(K) = K^(1/p) - L0^(1/q)] and its power-rule
    derivatives at the fixed values [p = 4], [q = 2], [L0 = 0.04]. *)
Theorem payoff_fixed_configuration (K : R) :
  0 < K ->
  g_0 K = Some (Formula.g 4 2 0.04 K) /\
  g_1 K = Some (Formula.g' 4 K) /\
  g_2 K = Some (Formula.g'' 4 K).
Proof.
  intro HK. split; [apply g_0_val, HK|]. split; [apply g_1_val, HK|apply g_2_val, HK].
Qed.

Lemma payoff_fixed_configuration_witness :
  0 < 16 /\
  g_0 16 = Some (Formula.g 4 2 0.04 16) /\
  g_1 16 = Some (Formula.g' 4 16) /\
  g_2 16 = Some (Formula.g'' 4 16).
Proof.
  split; [lra|]. apply (payoff_fixed_configuration 16). lra.
Defined.

(** ** The replication formulas *)

Lemma L_val : L = Some 0.0016.
Proof.
  unfold L. py_eval. rewrite Rpower_004_half. f_equal. lra.
Qed.

Lemma g_0_L : g_0 0.0016 = Some 0.
Proof.
  rewrite g_0_val by lra. unfold Formula.g.
  rewrite (Rpower_quarter 0.0016 0.2), Rpower_004_half by lra. f_equal. lra.
Qed.

Section Kernels.

Variables D F T m N alpha beta rho nu : R.
Hypothesis HF : 0 < F.
Hypothesis HT : 0 < T.
Hypothesis Hm : 0 < m.
Hypothesis HN : 0 < N.
Hypothesis Halpha : 0 < alpha.
Hypothesis Hnu : 0 < nu.
Hypothesis Hrho : -1 < rho < 1.

Variable K : R.
Hypothesis HK : 0 < K.
Hypothesis Hfactor : Formula.sabr_branch_factor F K T alpha beta rho nu <> 0.

Lemma SABR_vol_val :
  SABR F K T alpha beta rho nu = Some (sabr_vol F K T alpha beta rho nu).
Proof.
  unfold sabr_vol. destruct (Rlt_dec (Rabs (F - K)) 1e-12) as [Hb | Hb].
  - apply SABR_atm_val; assumption.
  - apply SABR_general_val; try assumption. apply not_near_neq, Hb.
Qed.

Lemma sabr_vol_neq_0 : sabr_vol F K T alpha beta rho nu <> 0.
Proof.
  unfold sabr_vol, Formula.sabr_branch_factor in *.
  destruct (Rlt_dec (Rabs (F - K)) 1e-12) as [Hb | Hb].
  - unfold Formula.sabr_atm.
    pose proof (Rpower_pos F (1 - beta)) as HP.
    assert (Hi : / Rpower F (1 - beta) <> 0) by (apply Rinv_neq_0_compat; lra).
    unfold Rdiv. apply Rmult_integral_contrapositive_currified; [|exact Hi].
    apply Rmult_integral_contrapositive_currified; [lra|exact Hfactor].
  - pose proof (sabr_denom_sign F K alpha beta rho nu HF HK Halpha Hnu Hrho
                  (not_near_neq F K Hb)) as Hw.
    unfold Formula.sabr_general.
    replace (alpha * Formula.sabr_factor F K T alpha beta rho nu
             * Formula.sabr_z F K alpha beta nu
             / Formula.sabr_denom F K alpha beta rho nu)
      with (alpha * Formula.sabr_factor F K T alpha beta rho nu
            * (Formula.sabr_z F K alpha beta nu
               / Formula.sabr_denom F K alpha beta rho nu))
      by (unfold Rdiv; ring).
    apply Rmult_integral_contrapositive_currified; [|lra].
    apply Rmult_integral_contrapositive_currified; [lra|exact Hfactor].
Qed.

Lemma put_kernel_val :
  (sigma <- SABR F K T alpha beta rho nu ;;
   put_integrand D F K sigma T m N)%py
  = Some (put_kernel D F T m N alpha beta rho nu K).
Proof.
  rewrite SABR_vol_val. cbn [bind].
  unfold put_integrand, receiver_swaption. cbv zeta.
  rewrite h_2_val, IRR_0_val, Black76Put_val
    by first [assumption | exact sabr_vol_neq_0].
  py_eval. reflexivity.
Qed.

Lemma call_kernel_val :
  (sigma <- SABR F K T alpha beta rho nu ;;
   call_integrand D F K sigma T m N)%py
  = Some (call_kernel D F T m N alpha beta rho nu K).
Proof.
  rewrite SABR_vol_val. cbn [bind].
  unfold call_integrand, payer_swaption. cbv zeta.
  rewrite h_2_val, IRR_0_val, Black76Call_val
    by first [assumption | exact sabr_vol_neq_0].
  py_eval. reflexivity.
Qed.

End Kernels.

(** *** Continuity and integrability of the kernels *)

(** A function that vanishes inside an interval is integrable on it. *)
Lemma vanishing_inside_integrable (d : R -> R) (a b : R) :
  a <= b -> (forall x, a < x < b -> d x = 0) -> Riemann_integrable d a b.
Proof.
  intros Hab Hd eps.
  assert (Hstep : IsStepFun d a b).
  { exists (cons a (cons b nil)), (cons 0 nil). repeat split.
    - intros i Hi. simpl in Hi. destruct i as [| i]; [simpl; exact Hab|lia].
    - simpl. symmetry. apply Rmin_left, Hab.
    - simpl. symmetry. apply Rmax_right, Hab.
    - intros i Hi. simpl in Hi. destruct i as [| i]; [|lia].
      intros x Hx. simpl in *. apply Hd. exact Hx. }
  exists (mkStepFun Hstep), (mkStepFun (StepFun_P4 a b 0)). split.
  - intros t _. simpl. unfold fct_cte.
    rewrite Rminus_diag, Rabs_R0. apply Rle_refl.
  - rewrite StepFun_P18, Rmult_0_l, Rabs_R0. apply cond_pos.
Qed.

(** A function that agrees inside an interval with a function continuous on
    it is integrable there. *)
Lemma continuous_inside_integrable (g h : R -> R) (a b : R) :
  a <= b ->
  (forall x, a <= x <= b -> continuity_pt g x) ->
  (forall x, a < x < b -> h x = g x) ->
  Riemann_integrable h a b.
Proof.
  intros Hab Hg Hh.
  refine (@Riemann_integrable_ext (fun x => g x + 1 * (h x - g x)) h a b _ _).
  { intros x _. ring. }
  apply (@RiemannInt_P10 g (fun x => h x - g x) a b 1).
  - apply continuity_implies_RiemannInt; assumption.
  - apply vanishing_inside_integrable; [exact Hab|].
    intros x Hx. rewrite (Hh x Hx). ring.
Qed.

(** More differentiation rules. *)
Section MoreRules.

Variables (f : R -> R) (x a : R).
Hypothesis Hf : derivable_pt_lim f x a.

Lemma D_ln : 0 < f x -> derivable_pt_lim (fun y => ln (f y)) x (/ f x * a).
Proof.
  intro H. exact (derivable_pt_lim_comp f ln x a _ Hf (derivable_pt_lim_ln (f x) H)).
Qed.

Lemma D_sqrt : 0 < f x -> derivable_pt_lim (fun y => sqrt (f y)) x (/ (2 * sqrt (f x)) * a).
Proof.
  intro H. exact (derivable_pt_lim_comp f sqrt x a _ Hf (derivable_pt_lim_sqrt (f x) H)).
Qed.

Lemma D_cdf : derivable_pt_lim (fun y => Normal.cdf (f y)) x (Normal.pdf (f x) * a).
Proof.
  exact (derivable_pt_lim_comp f Normal.cdf x a _ Hf
           (NormalFacts.cdf_derivable_pt_lim (f x))).
Qed.

End MoreRules.

Ltac C_step side :=
  first
    [ D_step side
    | lazymatch goal with
      | |- derivable_pt_lim (fun y => ln (@?u y)) ?x _ => eapply (D_ln u x); [ | side]
      | |- derivable_pt_lim (fun y => sqrt (@?u y)) ?x _ => eapply (D_sqrt u x); [ | side]
      | |- derivable_pt_lim (fun y => Normal.cdf (@?u y)) ?x _ => eapply (D_cdf u x)
      end ].

(** Continuity at a point, by differentiation. *)
Ltac continuous_by_derivative side :=
  apply derivable_continuous_pt; eexists; unfold derivable_pt_abs; repeat C_step side.

Lemma h''_continuous (m N x : R) :
  0 < m -> 0 < N -> 0 < x ->
  continuity_pt (fun K => Formula.h'' 4 2 0.04 K m N) x.
Proof.
  intros Hm HN Hx.
  pose proof (IRR_neq_0 x m N Hx Hm HN) as Hi.
  assert (H2 : Formula.IRR x m N ^ 2 <> 0) by (apply pow_nonzero; exact Hi).
  assert (H3 : Formula.IRR x m N ^ 3 <> 0) by (apply pow_nonzero; exact Hi).
  assert (Hb : 0 < 1 + x / m) by (pose proof (base_gt_1 x m Hx Hm); lra).
  assert (Hx0 : x <> 0) by lra.
  assert (Hxm : x * m <> 0) by (apply Rgt_not_eq, Rmult_lt_0_compat; assumption).
  assert (Hxmm : x * (m * m) <> 0).
  { apply Rgt_not_eq. repeat apply Rmult_lt_0_compat; assumption. }
  unfold Formula.h'', Formula.g'', Formula.g', Formula.g, Formula.IRR'',
    Formula.IRR', Formula.IRR.
  continuous_by_derivative ltac:(first [assumption | lra]).
Qed.

Section PriceContinuity.

Variables (F T : R) (s : R -> R) (x l : R).
Hypothesis HF : 0 < F.
Hypothesis HT : 0 < T.
Hypothesis Hx : 0 < x.
Hypothesis Hs : derivable_pt_lim s x l.
Hypothesis Hsx : s x <> 0.

Lemma Black76Call_continuous :
  continuity_pt (fun K => Formula.Black76Call F K (s K) T) x.
Proof.
  pose proof (vol_sqrt_neq_0 (s x) T Hsx HT) as Hv.
  assert (HFx : 0 < F / x) by (apply Rdiv_lt_0_compat; assumption).
  assert (Hx0 : x <> 0) by lra.
  unfold Formula.Black76Call, Formula.d1, Formula.d2.
  continuous_by_derivative ltac:(cbv beta; first [assumption | lra]).
Qed.

Lemma Black76Put_continuous :
  continuity_pt (fun K => Formula.Black76Put F K (s K) T) x.
Proof.
  pose proof (vol_sqrt_neq_0 (s x) T Hsx HT) as Hv.
  assert (HFx : 0 < F / x) by (apply Rdiv_lt_0_compat; assumption).
  assert (Hx0 : x <> 0) by lra.
  unfold Formula.Black76Put, Formula.d1, Formula.d2.
  continuous_by_derivative ltac:(cbv beta; first [assumption | lra]).
Qed.

End PriceContinuity.

Lemma sabr_general_derivable (F T alpha beta rho nu x : R) :
  0 < F -> 0 < x -> 0 < alpha -> 0 < nu -> -1 < rho < 1 -> F <> x ->
  derivable_pt (fun K => Formula.sabr_general F K T alpha beta rho nu) x.
Proof.
  intros HF Hx Ha Hn Hr HFx.
  pose proof (sabr_denom_neq_0 F x alpha beta rho nu HF Hx Ha Hn Hr HFx) as Hd.
  pose proof (chi_radicand_pos rho (Formula.sabr_z F x alpha beta nu) Hr) as Hrad.
  pose proof (chi_arg_pos rho (Formula.sabr_z F x alpha beta nu) Hr) as Harg.
  assert (HFK : 0 < F * x) by (apply Rmult_lt_0_compat; assumption).
  assert (HFdx : 0 < F / x) by (apply Rdiv_lt_0_compat; assumption).
  assert (Hx0 : x <> 0) by lra.
  assert (Hr1 : 1 - rho <> 0) by lra.
  unfold Formula.sabr_general, Formula.sabr_factor, Formula.sabr_numer1,
    Formula.sabr_numer2, Formula.sabr_term3, Formula.sabr_denom,
    Formula.sabr_denom1, Formula.sabr_denom2, Formula.sabr_chi, Formula.sabr_z.
  eexists. unfold derivable_pt_abs.
  repeat C_step ltac:(cbv beta; first [assumption | apply Rpower_neq_0 | lra]).
Qed.

(** *** Integrals over an open interval *)

Lemma integral_on_open_unique (g1 g2 : R -> R) (a b I1 I2 : R) :
  a < b ->
  (forall x, a < x < b -> g1 x = g2 x) ->
  integral_on_open g1 a b I1 -> integral_on_open g2 a b I2 -> I1 = I2.
Proof.
  intros Hab Hext [Hi1 Hc1] [Hi2 Hc2].
  apply cond_eq. intros eps Heps.
  destruct (Hc1 (eps / 2)) as [d1 [Hd1 H1]]; [lra|].
  destruct (Hc2 (eps / 2)) as [d2 [Hd2 H2]]; [lra|].
  set (d := Rmin (Rmin d1 d2) (b - a)).
  assert (Hd : 0 < d /\ d <= d1 /\ d <= d2 /\ d <= b - a).
  { unfold d, Rmin. repeat destruct (Rle_dec _ _); lra. }
  clearbody d.
  set (u := a + d / 3). set (v := b - d / 3).
  assert (Hu : a < u < a + d) by (unfold u; lra).
  assert (Hv : b - d < v < b) by (unfold v; lra).
  assert (Huv : u <= v) by (unfold u, v; lra).
  destruct (Hi1 u v) as [pr1]; [lra | exact Huv | lra |].
  destruct (Hi2 u v) as [pr2]; [lra | exact Huv | lra |].
  assert (E : RiemannInt pr1 = RiemannInt pr2).
  { apply RiemannInt_P18; [exact Huv|]. intros x Hx. apply Hext. lra. }
  pose proof (H1 u v pr1 ltac:(lra) ltac:(lra) Huv) as B1.
  pose proof (H2 u v pr2 ltac:(lra) ltac:(lra) Huv) as B2.
  rewrite E in B1.
  apply Rabs_def2 in B1. apply Rabs_def2 in B2. apply Rabs_def1; lra.
Qed.

Lemma has_integral_unique (g1 g2 : R -> R) (a b I1 I2 : R) :
  (forall x, Rmin a b < x < Rmax a b -> g1 x = g2 x) ->
  has_integral g1 a b I1 -> has_integral g2 a b I2 -> I1 = I2.
Proof.
  intros Hext [[Hab H1] | [[Hab H1] | [Hab H1]]] [[Hab' H2] | [[Hab' H2] | [Hab' H2]]];
    try lra.
  - apply (integral_on_open_unique g1 g2 a b); try assumption.
    intros x Hx. apply Hext.
    rewrite Rmin_left, Rmax_right by lra. exact Hx.
  - assert (E : - I1 = - I2).
    { apply (integral_on_open_unique g1 g2 b a); try assumption.
      intros x Hx. apply Hext.
      rewrite Rmin_right, Rmax_left by lra. exact Hx. }
    lra.
Qed.

Lemma integral_bound (g : R -> R) (a b M : R) (pr : Riemann_integrable g a b) :
  a <= b -> (forall x, a < x < b -> Rabs (g x) <= M) ->
  Rabs (RiemannInt pr) <= M * (b - a).
Proof.
  intros Hab HM.
  apply Rle_trans with (RiemannInt (RiemannInt_P16 pr)).
  - apply RiemannInt_P17, Hab.
  - rewrite <- (RiemannInt_P15 (RiemannInt_P14 a b M)).
    apply RiemannInt_P19; [exact Hab|]. intros x Hx. apply HM, Hx.
Qed.

(** A bounded integrable function has its Riemann integral over [[a, b]] as
    the integral over [(a, b)]. *)
Lemma proper_integral_on_open (g : R -> R) (a b M : R)
    (pr : Riemann_integrable g a b) :
  a < b -> (forall x, a < x < b -> Rabs (g x) <= M) ->
  integral_on_open g a b (RiemannInt pr).
Proof.
  intros Hab HM. split.
  - intros u v Hu Huv Hv. constructor.
    apply (@RiemannInt_P22 g u b v); [|lra].
    apply (@RiemannInt_P23 g a b u); [exact pr|lra].
  - intros eps Heps.
    set (M' := Rabs M + 1).
    assert (HM' : 0 < M') by (unfold M'; pose proof (Rabs_pos M); lra).
    assert (HMM : forall x, a < x < b -> Rabs (g x) <= M').
    { intros x Hx. unfold M'. pose proof (HM x Hx). pose proof (Rle_abs M). lra. }
    exists (eps / (2 * M')). split.
    { apply Rdiv_lt_0_compat; lra. }
    intros u v pr' Hu Hv Huv.
    assert (pa : Riemann_integrable g a u).
    { apply (@RiemannInt_P22 g a b u); [exact pr|lra]. }
    assert (pb : Riemann_integrable g v b).
    { apply (@RiemannInt_P23 g a b v); [exact pr|lra]. }
    assert (pav : Riemann_integrable g a v).
    { apply (@RiemannInt_P22 g a b v); [exact pr|lra]. }
    pose proof (RiemannInt_P26 pa pr' pav) as E1.
    pose proof (RiemannInt_P26 pav pb pr) as E2.
    assert (Ba : Rabs (RiemannInt pa) <= M' * (u - a)).
    { apply integral_bound; [lra|]. intros x Hx. apply HMM. lra. }
    assert (Bb : Rabs (RiemannInt pb) <= M' * (b - v)).
    { apply integral_bound; [lra|]. intros x Hx. apply HMM. lra. }
    assert (Hquot : M' * (eps / (2 * M')) = eps / 2) by (field; lra).
    assert (Sa : M' * (u - a) < eps / 2).
    { rewrite <- Hquot. apply Rmult_lt_compat_l; lra. }
    assert (Sb : M' * (b - v) < eps / 2).
    { rewrite <- Hquot. apply Rmult_lt_compat_l; lra. }
    replace (RiemannInt pr' - RiemannInt pr)
      with (- RiemannInt pa + - RiemannInt pb) by lra.
    eapply Rle_lt_trans; [apply Rabs_triang|].
    rewrite !Rabs_Ropp. lra.
Qed.

Lemma proper_has_integral (g : R -> R) (a b M : R)
    (pr : Riemann_integrable g a b) :
  (forall x, Rmin a b < x < Rmax a b -> Rabs (g x) <= M) ->
  has_integral g a b (RiemannInt pr).
Proof.
  intro HM. destruct (total_order_T a b) as [[Hab | Hab] | Hab].
  - left. split; [exact Hab|].
    apply (proper_integral_on_open g a b M); [exact Hab|].
    intros x Hx. apply HM. rewrite Rmin_left, Rmax_right by lra. exact Hx.
  - right. left. split; [exact Hab|]. subst b. apply RiemannInt_P9.
  - right. right. split; [exact Hab|].
    rewrite (RiemannInt_P8 pr (RiemannInt_P1 pr)), Ropp_involutive.
    apply (proper_integral_on_open g b a M); [exact Hab|].
    intros x Hx. apply HM. rewrite Rmin_right, Rmax_left by lra. exact Hx.
Qed.

Lemma continuous_bounded (G : R -> R) (a b : R) :
  a <= b -> (forall x, a <= x <= b -> continuity_pt G x) ->
  exists M, 0 <= M /\ forall x, a <= x <= b -> Rabs (G x) <= M.
Proof.
  intros Hab HG.
  destruct (continuity_ab_maj G a b Hab HG) as [Mx [Hmax _]].
  destruct (continuity_ab_min G a b Hab HG) as [mx [Hmin _]].
  exists (Rabs (G Mx) + Rabs (G mx)). split.
  - pose proof (Rabs_pos (G Mx)). pose proof (Rabs_pos (G mx)). lra.
  - intros x Hx. specialize (Hmax x Hx). specialize (Hmin x Hx).
    pose proof (Rle_abs (G Mx)). pose proof (Rle_abs (- G mx)) as Hm.
    rewrite Rabs_Ropp in Hm.
    pose proof (Rabs_pos (G Mx)). pose proof (Rabs_pos (G mx)).
    apply Rabs_le. lra.
Qed.

Lemma two_branch_bounded (G_in G_out : R -> R) (c tol a b : R) :
  0 < tol -> a <= b ->
  (forall x, a <= x <= b -> continuity_pt G_in x) ->
  (forall x, a <= x <= b -> ~ Rabs (c - x) < tol -> continuity_pt G_out x) ->
  exists M, forall x, a <= x <= b ->
    Rabs (if Rlt_dec (Rabs (c - x)) tol then G_in x else G_out x) <= M.
Proof.
  intros Htol Hab Hin Hout.
  assert (Hfar : forall x, x <= c - tol \/ c + tol <= x -> ~ Rabs (c - x) < tol).
  { intros x Hx Habs. apply Rabs_def2 in Habs. lra. }
  assert (Hnear : forall x, ~ Rabs (c - x) < tol -> x <= c - tol \/ c + tol <= x).
  { intros x Hx. destruct (Rle_dec x (c - tol)) as [H1 | H1]; [left; exact H1|].
    destruct (Rle_dec (c + tol) x) as [H2 | H2]; [right; exact H2|].
    exfalso. apply Hx. apply Rabs_def1; lra. }
  destruct (continuous_bounded G_in a b Hab Hin) as [Mi [HMi0 HMi]].
  assert (Hlow : exists M1, 0 <= M1 /\
            forall x, a <= x <= b -> x <= c - tol -> Rabs (G_out x) <= M1).
  { destruct (Rle_dec a (Rmin b (c - tol))) as [Hp | Hp].
    - destruct (continuous_bounded G_out a (Rmin b (c - tol)) Hp) as [M1 [H0 H1]].
      + intros x Hx.
        pose proof (Rmin_l b (c - tol)). pose proof (Rmin_r b (c - tol)).
        apply Hout; [lra|]. apply Hfar. lra.
      + exists M1. split; [exact H0|]. intros x Hx Hxc. apply H1.
        split; [lra|]. apply Rmin_glb; lra.
    - exists 0. split; [lra|]. intros x Hx Hxc. exfalso. apply Hp.
      apply Rle_trans with x; [lra|]. apply Rmin_glb; lra. }
  assert (Hhigh : exists M2, 0 <= M2 /\
            forall x, a <= x <= b -> c + tol <= x -> Rabs (G_out x) <= M2).
  { destruct (Rle_dec (Rmax a (c + tol)) b) as [Hp | Hp].
    - destruct (continuous_bounded G_out (Rmax a (c + tol)) b Hp) as [M2 [H0 H2]].
      + intros x Hx.
        pose proof (Rmax_l a (c + tol)). pose proof (Rmax_r a (c + tol)).
        apply Hout; [lra|]. apply Hfar. lra.
      + exists M2. split; [exact H0|]. intros x Hx Hxc. apply H2.
        split; [|lra]. apply Rmax_lub; lra.
    - exists 0. split; [lra|]. intros x Hx Hxc. exfalso. apply Hp.
      apply Rle_trans with x; [|lra]. apply Rmax_lub; lra. }
  destruct Hlow as [M1 [HM10 HM1]]. destruct Hhigh as [M2 [HM20 HM2]].
  exists (Mi + M1 + M2). intros x Hx.
  destruct (Rlt_dec (Rabs (c - x)) tol) as [Hn | Hn].
  - specialize (HMi x Hx). lra.
  - destruct (Hnear x Hn) as [Hc | Hc].
    + specialize (HM1 x Hx Hc). lra.
    + specialize (HM2 x Hx Hc). lra.
Qed.

(** A function with one formula within [tol] of [c] and another elsewhere is
    Riemann integrable on [[a, b]] when both formulas are continuous where
    they are used. *)
Lemma two_branch_integrable (G_in G_out : R -> R) (c tol a b : R) :
  0 < tol -> a <= b ->
  (forall x, a <= x <= b -> continuity_pt G_in x) ->
  (forall x, a <= x <= b -> ~ Rabs (c - x) < tol -> continuity_pt G_out x) ->
  Riemann_integrable
    (fun x => if Rlt_dec (Rabs (c - x)) tol then G_in x else G_out x) a b.
Proof.
  intros Htol Hab Hin Hout.
  set (h := fun x => if Rlt_dec (Rabs (c - x)) tol then G_in x else G_out x).
  set (m1 := Rmax a (Rmin b (c - tol))).
  set (m2 := Rmax a (Rmin b (c + tol))).
  assert (Ham1 : a <= m1) by apply Rmax_l.
  assert (Hm12 : m1 <= m2).
  { unfold m1, m2, Rmax, Rmin. repeat destruct (Rle_dec _ _); lra. }
  assert (Hm2b : m2 <= b).
  { unfold m2, Rmax, Rmin. repeat destruct (Rle_dec _ _); lra. }
  assert (Hfar : forall x, x <= c - tol \/ c + tol <= x -> ~ Rabs (c - x) < tol).
  { intros x Hx Habs. apply Rabs_def2 in Habs. lra. }
  assert (P1 : Riemann_integrable h a m1).
  { destruct (Req_EM_T a m1) as [E | E].
    - rewrite <- E. apply RiemannInt_P7.
    - assert (Hle : m1 <= c - tol).
      { revert E. unfold m1, Rmax, Rmin. repeat destruct (Rle_dec _ _); lra. }
      apply (continuous_inside_integrable G_out); [exact Ham1 | |].
      + intros x Hx. apply Hout; [lra|]. apply Hfar. lra.
      + intros x Hx. unfold h.
        destruct (Rlt_dec (Rabs (c - x)) tol) as [Hn | _]; [|reflexivity].
        exfalso. apply (Hfar x); [lra | exact Hn]. }
  assert (P2 : Riemann_integrable h m1 m2).
  { destruct (Req_EM_T m1 m2) as [E | E].
    - rewrite <- E. apply RiemannInt_P7.
    - assert (Hle : c - tol <= m1 /\ m2 <= c + tol).
      { revert E. unfold m1, m2, Rmax, Rmin. repeat destruct (Rle_dec _ _); lra. }
      apply (continuous_inside_integrable G_in); [exact Hm12 | |].
      + intros x Hx. apply Hin. lra.
      + intros x Hx. unfold h.
        destruct (Rlt_dec (Rabs (c - x)) tol) as [_ | Hn]; [reflexivity|].
        exfalso. apply Hn. apply Rabs_def1; lra. }
  assert (P3 : Riemann_integrable h m2 b).
  { destruct (Req_EM_T m2 b) as [E | E].
    - rewrite E. apply RiemannInt_P7.
    - assert (Hle : c + tol <= m2).
      { revert E. unfold m2, Rmax, Rmin. repeat destruct (Rle_dec _ _); lra. }
      apply (continuous_inside_integrable G_out); [exact Hm2b | |].
      + intros x Hx. apply Hout; [lra|]. apply Hfar. lra.
      + intros x Hx. unfold h.
        destruct (Rlt_dec (Rabs (c - x)) tol) as [Hn | _]; [|reflexivity].
        exfalso. apply (Hfar x); [lra | exact Hn]. }
  exact (RiemannInt_P24 (RiemannInt_P24 P1 P2) P3).
Qed.

Section KernelIntegrable.

Variables D F T m N alpha beta rho nu : R.
Hypothesis HF : 0 < F.
Hypothesis HT : 0 < T.
Hypothesis Hm : 0 < m.
Hypothesis HN : 0 < N.
Hypothesis Halpha : 0 < alpha.
Hypothesis Hnu : 0 < nu.
Hypothesis Hrho : -1 < rho < 1.
Hypothesis Hfactor :
  forall K, 0 < K -> Formula.sabr_branch_factor F K T alpha beta rho nu <> 0.

Lemma sabr_atm_neq_0 : Formula.sabr_atm F T alpha beta rho nu <> 0.
Proof.
  pose proof (sabr_vol_neq_0 F T alpha beta rho nu HF Halpha Hnu Hrho F HF
                (Hfactor F HF)) as H.
  unfold sabr_vol in H.
  destruct (Rlt_dec (Rabs (F - F)) 1e-12) as [_ | Hn]; [exact H|].
  exfalso. apply Hn. replace (F - F) with 0 by ring. rewrite Rabs_R0. lra.
Qed.

Lemma sabr_general_neq_0 (x : R) :
  0 < x -> ~ Rabs (F - x) < 1e-12 ->
  Formula.sabr_general F x T alpha beta rho nu <> 0.
Proof.
  intros Hx Hfar.
  pose proof (sabr_vol_neq_0 F T alpha beta rho nu HF Halpha Hnu Hrho x Hx
                (Hfactor x Hx)) as H.
  unfold sabr_vol in H.
  destruct (Rlt_dec (Rabs (F - x)) 1e-12) as [Hn | _]; [contradiction|exact H].
Qed.

Variable price : R -> R -> R -> R -> R.
Hypothesis price_continuous :
  forall (s : R -> R) (x l : R),
    0 < x -> derivable_pt_lim s x l -> s x <> 0 ->
    continuity_pt (fun K => price F K (s K) T) x.

Lemma weighted_price_continuous (s : R -> R) (x l : R) :
  0 < x -> derivable_pt_lim s x l -> s x <> 0 ->
  continuity_pt
    (fun K => Formula.h'' 4 2 0.04 K m N
              * (D * Formula.IRR F m N * price F K (s K) T)) x.
Proof.
  intros Hx Hs Hsx.
  apply (continuity_pt_mult (fun K => Formula.h'' 4 2 0.04 K m N)
           (fun K => D * Formula.IRR F m N * price F K (s K) T)).
  - apply h''_continuous; assumption.
  - apply (continuity_pt_mult (fun _ => D * Formula.IRR F m N)
             (fun K => price F K (s K) T)).
    + apply continuity_pt_const. intros u v. reflexivity.
    + apply (price_continuous s x l); assumption.
Qed.

Lemma atm_kernel_continuous (x : R) :
  0 < x ->
  continuity_pt
    (fun K => Formula.h'' 4 2 0.04 K m N
              * (D * Formula.IRR F m N
                 * price F K (Formula.sabr_atm F T alpha beta rho nu) T)) x.
Proof.
  intro Hx.
  apply (weighted_price_continuous
           (fun _ => Formula.sabr_atm F T alpha beta rho nu) x 0).
  - exact Hx.
  - apply derivable_pt_lim_const.
  - exact sabr_atm_neq_0.
Qed.

Lemma general_kernel_continuous (x : R) :
  0 < x -> ~ Rabs (F - x) < 1e-12 ->
  continuity_pt
    (fun K => Formula.h'' 4 2 0.04 K m N
              * (D * Formula.IRR F m N
                 * price F K (Formula.sabr_general F K T alpha beta rho nu) T)) x.
Proof.
  intros Hx Hfar.
  destruct (sabr_general_derivable F T alpha beta rho nu x HF Hx Halpha Hnu
              Hrho (not_near_neq F x Hfar)) as [l Hl].
  apply (weighted_price_continuous
           (fun K => Formula.sabr_general F K T alpha beta rho nu) x l).
  - exact Hx.
  - exact Hl.
  - apply sabr_general_neq_0; assumption.
Qed.

Lemma weighted_price_branches (x : R) :
  Formula.h'' 4 2 0.04 x m N
  * (D * Formula.IRR F m N * price F x (sabr_vol F x T alpha beta rho nu) T)
  = if Rlt_dec (Rabs (F - x)) 1e-12
    then Formula.h'' 4 2 0.04 x m N
         * (D * Formula.IRR F m N
            * price F x (Formula.sabr_atm F T alpha beta rho nu) T)
    else Formula.h'' 4 2 0.04 x m N
         * (D * Formula.IRR F m N
            * price F x (Formula.sabr_general F x T alpha beta rho nu) T).
Proof.
  unfold sabr_vol. destruct (Rlt_dec (Rabs (F - x)) 1e-12); reflexivity.
Qed.

Lemma weighted_price_integrable (a b : R) :
  0 < a <= b ->
  Riemann_integrable
    (fun K => Formula.h'' 4 2 0.04 K m N
              * (D * Formula.IRR F m N
                 * price F K (sabr_vol F K T alpha beta rho nu) T)) a b.
Proof.
  intros Hab.
  refine (@Riemann_integrable_ext _ _ a b _ _).
  { intros x _. symmetry. apply weighted_price_branches. }
  apply two_branch_integrable.
  - lra.
  - apply Hab.
  - intros x Hx. apply atm_kernel_continuous. lra.
  - intros x Hx Hfar. apply general_kernel_continuous; [lra|exact Hfar].
Qed.

Lemma weighted_price_bounded (a b : R) :
  0 < a <= b ->
  exists M, forall x, a <= x <= b ->
    Rabs (Formula.h'' 4 2 0.04 x m N
          * (D * Formula.IRR F m N
             * price F x (sabr_vol F x T alpha beta rho nu) T)) <= M.
Proof.
  intros Hab.
  destruct (two_branch_bounded
              (fun x => Formula.h'' 4 2 0.04 x m N
                        * (D * Formula.IRR F m N
                           * price F x (Formula.sabr_atm F T alpha beta rho nu) T))
              (fun x => Formula.h'' 4 2 0.04 x m N
                        * (D * Formula.IRR F m N
                           * price F x (Formula.sabr_general F x T alpha beta rho nu) T))
              F 1e-12 a b) as [M HM].
  - lra.
  - apply Hab.
  - intros x Hx. apply atm_kernel_continuous. lra.
  - intros x Hx Hfar. apply general_kernel_continuous; [lra|exact Hfar].
  - exists M. intros x Hx. rewrite weighted_price_branches. apply HM, Hx.
Qed.

End KernelIntegrable.

Section KernelsIntegrable.

Variables D F T m N alpha beta rho nu : R.
Hypothesis HF : 0 < F.
Hypothesis HT : 0 < T.
Hypothesis Hm : 0 < m.
Hypothesis HN : 0 < N.
Hypothesis Halpha : 0 < alpha.
Hypothesis Hnu : 0 < nu.
Hypothesis Hrho : -1 < rho < 1.
Hypothesis Hfactor :
  forall K, 0 < K -> Formula.sabr_branch_factor F K T alpha beta rho nu <> 0.

Lemma call_price_continuous (s : R -> R) (x l : R) :
  0 < x -> derivable_pt_lim s x l -> s x <> 0 ->
  continuity_pt (fun K => Formula.Black76Call F K (s K) T) x.
Proof.
  intros Hx Hs Hsx. apply (Black76Call_continuous F T s x l); assumption.
Qed.

Lemma put_price_continuous (s : R -> R) (x l : R) :
  0 < x -> derivable_pt_lim s x l -> s x <> 0 ->
  continuity_pt (fun K => Formula.Black76Put F K (s K) T) x.
Proof.
  intros Hx Hs Hsx. apply (Black76Put_continuous F T s x l); assumption.
Qed.

(** The kernels are Riemann integrable between positive bounds, in either
    order. *)
Lemma call_kernel_integrable (a b : R) :
  0 < a -> 0 < b ->
  Riemann_integrable (call_kernel D F T m N alpha beta rho nu) a b.
Proof.
  intros Ha Hb.
  assert (Hle : forall u v, 0 < u <= v ->
            Riemann_integrable (call_kernel D F T m N alpha beta rho nu) u v).
  { intros u v Huv.
    apply (weighted_price_integrable D F T m N alpha beta rho nu HF Hm HN
             Halpha Hnu Hrho Hfactor Formula.Black76Call call_price_continuous).
    exact Huv. }
  destruct (Rle_dec a b) as [Hab | Hab].
  - apply Hle. lra.
  - apply RiemannInt_P1, Hle. lra.
Qed.

Lemma put_kernel_integrable (a b : R) :
  0 < a -> 0 < b ->
  Riemann_integrable (put_kernel D F T m N alpha beta rho nu) a b.
Proof.
  intros Ha Hb.
  assert (Hle : forall u v, 0 < u <= v ->
            Riemann_integrable (put_kernel D F T m N alpha beta rho nu) u v).
  { intros u v Huv.
    apply (weighted_price_integrable D F T m N alpha beta rho nu HF Hm HN
             Halpha Hnu Hrho Hfactor Formula.Black76Put put_price_continuous).
    exact Huv. }
  destruct (Rle_dec a b) as [Hab | Hab].
  - apply Hle. lra.
  - apply RiemannInt_P1, Hle. lra.
Qed.

(** Between positive bounds the integral of the call kernel in the sense of
    [has_integral] is its Riemann integral. *)
Lemma call_kernel_has_integral (a b : R)
    (pr : Riemann_integrable (call_kernel D F T m N alpha beta rho nu) a b) :
  0 < a -> 0 < b ->
  has_integral (call_kernel D F T m N alpha beta rho nu) a b (RiemannInt pr).
Proof.
  intros Ha Hb.
  destruct (weighted_price_bounded D F T m N alpha beta rho nu HF Hm HN
              Halpha Hnu Hrho Hfactor Formula.Black76Call call_price_continuous
              (Rmin a b) (Rmax a b)) as [M HM].
  { split; [apply Rmin_glb_lt; assumption|].
    apply Rle_trans with a; [apply Rmin_l|apply Rmax_l]. }
  apply (proper_has_integral _ a b M).
  intros x Hx. apply HM. lra.
Qed.

End KernelsIntegrable.

(** *** A quadrature without error

    The quadrature that returns the integral whenever the integrand has,
    inside the interval, the values of a function that has one. *)

Lemma integral_value_exists (f : R -> PR) (a b : R) :
  exists I : R,
    forall (g : R -> R) (J : R),
      (forall x, Rmin a b < x < Rmax a b -> f x = Some (g x)) ->
      has_integral g a b J ->
      I = J.
Proof.
  destruct (classic (exists (g : R -> R) (J : R),
                       (forall x, Rmin a b < x < Rmax a b -> f x = Some (g x))
                       /\ has_integral g a b J))
    as [[g0 [J0 [H0 HJ0]]] | Hno].
  - exists J0. intros g J Hg HJ.
    apply (has_integral_unique g0 g a b); [|exact HJ0|exact HJ].
    intros x Hx. specialize (H0 x Hx). specialize (Hg x Hx). congruence.
  - exists 0. intros g J Hg HJ. exfalso. apply Hno. exists g, J. split; assumption.
Qed.

Definition riemann_quad (f : R -> PR) (a b : R) : option (R * R) :=
  Some (proj1_sig (constructive_indefinite_description _ (integral_value_exists f a b)),
        0).

Lemma riemann_quad_exact : exact_quadrature riemann_quad.
Proof.
  intros f a b I e Hq g J Hg HJ. unfold riemann_quad in Hq.
  injection Hq as HI _. subst I.
  exact (proj2_sig (constructive_indefinite_description _ (integral_value_exists f a b))
           g J Hg HJ).
Qed.

Lemma v_0_unfold
    (quad : (R -> PR) -> R -> R -> option (R * R))
    (D F T m N alpha beta rho nu : R) :
  v_0 quad D F T m N alpha beta rho nu
  = (I_put <- quad (fun K => sigma <- SABR F K T alpha beta rho nu ;;
                             put_integrand D F K sigma T m N) 0 F ;;
     I_call <- quad (fun K => sigma <- SABR F K T alpha beta rho nu ;;
                              call_integrand D F K sigma T m N) F 5000 ;;
     D * g_0 F + fst I_put + fst I_call)%py.
Proof.
  unfold v_0, I_put, I_call. replace 0.0 with 0 by lra. reflexivity.
Qed.


Lemma branch_factor_pos (F K T alpha beta rho nu : R) :
  0 < F -> 0 < K -> 0 < T -> 0 < beta <= 1 -> 0 < alpha -> 0 < nu ->
  0 <= rho -> 3 * rho ^ 2 <= 2 ->
  0 < Formula.sabr_branch_factor F K T alpha beta rho nu.
Proof.
  intros HF HK HT Hb Ha Hn Hr0 Hr2. unfold Formula.sabr_branch_factor.
  assert (Hr : -1 < rho < 1) by nra.
  destruct (Rlt_dec (Rabs (F - K)) 1e-12) as [_ | _].
  - apply sabr_atm_factor_pos; assumption.
  - apply sabr_factor_pos; assumption.
Qed.




(** ** The shared boundary [L = F] *)

Lemma Rpower_2_2 : Rpower 2 2 = 4.
Proof.
  replace 2 with (1 + 1) at 2 by lra.
  rewrite Rpower_plus, Rpower_1 by lra. lra.
Qed.

Lemma IRR_at_1 : Formula.IRR 1 1 1 = 1 / 2.
Proof.
  unfold Formula.IRR. replace (1 + 1 / 1) with 2 by lra.
  replace (1 * 1) with 1 by lra.
  rewrite Rpower_Ropp, Rpower_1 by lra. lra.
Qed.

Lemma IRR'_at_1 : Formula.IRR' 1 1 1 = - (1 / 4).
Proof.
  unfold Formula.IRR'. rewrite IRR_at_1.
  replace (1 + 1 / 1) with 2 by lra. replace (1 * 1 + 1) with 2 by lra.
  rewrite Rpower_Ropp, Rpower_2_2. lra.
Qed.

Lemma h'_at_1 : Formula.h' 4 2 0.04 1 1 1 = 13 / 10.
Proof.
  unfold Formula.h', Formula.g, Formula.g'.
  rewrite IRR_at_1, IRR'_at_1, !Rpower_base_1, Rpower_004_half. lra.
Qed.

Lemma SABR_at_1 : SABR 1 1 1 1 1 0 1 = Some (13 / 12).
Proof.
  rewrite SABR_atm_val.
  - f_equal.
    unfold Formula.sabr_atm, Formula.sabr_atm_factor, Formula.sabr_term1,
      Formula.sabr_term2, Formula.sabr_term3.
    rewrite !Rpower_base_1. lra.
  - lra.
  - rewrite Rminus_diag, Rabs_R0. lra.
Qed.

Lemma Black76Call_at_1 :
  Formula.Black76Call 1 1 (13 / 12) 1
  = Normal.cdf (13 / 24) - Normal.cdf (- (13 / 24)).
Proof.
  unfold Formula.Black76Call, Formula.d1, Formula.d2.
  replace (1 / 1) with 1 by lra. rewrite ln_1, sqrt_1.
  replace ((0 + (13 / 12) ^ 2 * 1 / 2) / (13 / 12 * 1)) with (13 / 24) by lra.
  replace ((0 - (13 / 12) ^ 2 * 1 / 2) / (13 / 12 * 1)) with (- (13 / 24)) by lra.
  lra.
Qed.

Lemma boundary_term_at_1_neq_0 :
  13 / 10 * (1 * (1 / 2) * (Normal.cdf (13 / 24) - Normal.cdf (- (13 / 24)))) <> 0.
Proof.
  pose proof (NormalFacts.cdf_lt_opp (13 / 24) ltac:(lra)) as H. lra.
Qed.

(** Whatever estimate [c] the quadrature returns for the upper tail, the
    scenario-2 value at [L = F = 1] is [c] plus the boundary term. *)
Lemma v_1_at_forward_at_1
    (quad : (R -> PR) -> R -> R -> option (R * R)) (c ec : R) :
  I_call quad 1 1 1 1 1 1 1 0 1 = Some (c, ec) ->
  v_1_at quad 1 1 1 1 1 1 1 1 0 1
  = Some (13 / 10 * (1 * (1 / 2) * (Normal.cdf (13 / 24) - Normal.cdf (- (13 / 24))))
          + c).
Proof.
  intro Hq. unfold v_1_at.
  change (I_call2 quad 1 1 1 1 1 1 1 0 1 1) with (I_call quad 1 1 1 1 1 1 1 0 1).
  rewrite Hq. cbn [bind fst].
  rewrite SABR_at_1. cbn [bind].
  rewrite h_1_val by lra. unfold payer_swaption.
  rewrite IRR_0_val, Black76Call_val by lra.
  rewrite h'_at_1, IRR_at_1, Black76Call_at_1. reflexivity.
Qed.

(** C8, as stated, fails: with every parameter equal to 1 except [rho = 0]
    and the threshold at the forward, the scenario-2 value exceeds the
    upper-tail component of scenario 1 by the boundary term
    [13/10 * (1/2) * (Phi(13/24) - Phi(-13/24))], which is not zero.  The
    quadrature estimate cancels in the comparison; it is taken to be 0
    here. *)
Lemma v_1_at_forward_keeps_boundary_term :
  v_1_at (fun _ _ _ => Some (0, 0)) 1 1 1 1 1 1 1 1 0 1
  = Some (13 / 10 * (1 * (1 / 2) * (Normal.cdf (13 / 24) - Normal.cdf (- (13 / 24)))) + 0)
  /\
  (I <- I_call (fun _ _ _ => Some (0, 0)) 1 1 1 1 1 1 1 0 1 ;; val (fst I))%py
  = Some 0
  /\
  13 / 10 * (1 * (1 / 2) * (Normal.cdf (13 / 24) - Normal.cdf (- (13 / 24)))) + 0 <> 0.
Proof.
  split; [|split].
  - apply (v_1_at_forward_at_1 (fun _ _ _ => Some (0, 0)) 0 0). reflexivity.
  - reflexivity.
  - pose proof boundary_term_at_1_neq_0 as H. lra.
Qed.

(** C8, amended.  With the threshold [L] set to the forward [F], the
    scenario-2 value is the upper-tail quadrature of scenario 1 plus the
    boundary term [h_1 F * payer_swaption] at the strike [F]; the boundary
    term stays.  For positive [F], [T], [m], [N] and a non-zero at-the-money
    volatility [s], with the quadrature returning the estimate [c], the
    value is [h'(F) * (D * IRR(F) * Black76Call(F, F, s, T)) + c]. *)
Theorem v_1_at_forward
    (quad : (R -> PR) -> R -> R -> option (R * R))
    (D F T m N alpha beta rho nu : R) :
  v_1_at quad F D F T m N alpha beta rho nu
  = (I_call <- I_call quad D F T m N alpha beta rho nu ;;
     sigma <- SABR F F T alpha beta rho nu ;;
     h_1 F m N * payer_swaption D F F sigma T m N + fst I_call)%py
  /\
  forall c ec,
    0 < F -> 0 < T -> 0 < m -> 0 < N ->
    Formula.sabr_atm F T alpha beta rho nu <> 0 ->
    I_call quad D F T m N alpha beta rho nu = Some (c, ec) ->
    v_1_at quad F D F T m N alpha beta rho nu
    = Some (Formula.h' 4 2 0.04 F m N
            * (D * Formula.IRR F m N
               * Formula.Black76Call F F (Formula.sabr_atm F T alpha beta rho nu) T)
            + c).
Proof.
  assert (E : v_1_at quad F D F T m N alpha beta rho nu
    = (I_call <- I_call quad D F T m N alpha beta rho nu ;;
       sigma <- SABR F F T alpha beta rho nu ;;
       h_1 F m N * payer_swaption D F F sigma T m N + fst I_call)%py)
    by reflexivity.
  split; [exact E|].
  intros c ec HF HT Hm HN Hs Hq.
  rewrite E, Hq. cbn [bind fst].
  rewrite SABR_atm_val by (first [assumption | rewrite Rminus_diag, Rabs_R0; lra]).
  cbn [bind]. rewrite h_1_val by assumption. unfold payer_swaption.
  rewrite IRR_0_val, Black76Call_val by assumption.
  reflexivity.
Qed.

Lemma v_1_at_forward_witness :
  0 < 1 /\ Formula.sabr_atm 1 1 1 1 0 1 <> 0 /\
  v_1_at (fun _ _ _ => Some (0, 0)) 1 1 1 1 1 1 1 1 0 1
  = Some (Formula.h' 4 2 0.04 1 1 1
          * (1 * Formula.IRR 1 1 1
             * Formula.Black76Call 1 1 (Formula.sabr_atm 1 1 1 1 0 1) 1)
          + 0).
Proof.
  assert (Hs : Formula.sabr_atm 1 1 1 1 0 1 <> 0).
  { unfold Formula.sabr_atm, Formula.sabr_atm_factor, Formula.sabr_term1,
      Formula.sabr_term2, Formula.sabr_term3.
    rewrite !Rpower_base_1. lra. }
  split; [lra|]. split; [exact Hs|].
  apply (proj2 (v_1_at_forward (fun _ _ _ => Some (0, 0)) 1 1 1 1 1 1 1 0 1) 0 0);
    first [lra | exact Hs | reflexivity].
Defined.

(** * Further properties *)

(** ** Shape of the IRR annuity *)

(** Bernoulli's inequality for a real exponent outside [[0, 1]]. *)
Lemma Rpower_Bernoulli (x r : R) :
  0 < x -> r < 0 \/ 1 < r -> 1 + r * x < Rpower (1 + x) r.
Proof.
  intros Hx Hr.
  destruct (MVT_cor2 (fun t => Rpower (1 + t) r - r * t)
              (fun t => r * Rpower (1 + t) (r - 1) - r) 0 x Hx) as [c [Hc Hin]].
  { intros c Hc.
    D_auto ltac:(lra). cbv beta. ring. }
  cbv beta in Hc.
  replace (1 + 0) with 1 in Hc by lra. rewrite Rpower_base_1 in Hc.
  assert (Hd : 0 < r * Rpower (1 + c) (r - 1) - r).
  { destruct Hr as [Hneg | Hbig].
    - pose proof (Rpower_lt (1 + c) (r - 1) 0 ltac:(lra) ltac:(lra)) as H.
      rewrite Rpower_O in H by lra. nra.
    - pose proof (Rpower_lt (1 + c) 0 (r - 1) ltac:(lra) ltac:(lra)) as H.
      rewrite Rpower_O in H by lra. nra. }
  assert (0 < (r * Rpower (1 + c) (r - 1) - r) * (x - 0)).
  { apply Rmult_lt_0_compat; lra. }
  lra.
Qed.

Section IRRShape.

Variables K m N : R.
Hypothesis HK : 0 < K.
Hypothesis Hm : 0 < m.
Hypothesis HN : 0 < N.

Lemma IRR'_neg : Formula.IRR' K m N < 0.
Proof.
  assert (Hx : 0 < K / m) by (apply Rdiv_lt_0_compat; assumption).
  assert (Hn : 0 < N * m) by (apply Rmult_lt_0_compat; assumption).
  pose proof (Rpower_Bernoulli (K / m) (N * m + 1) Hx ltac:(right; lra)) as HB.
  pose proof (Rpower_pos (1 + K / m) (- (N * m + 1))) as HP1.
  assert (HP0 : Rpower (1 + K / m) (- (N * m))
                = Rpower (1 + K / m) (- (N * m + 1)) * (1 + K / m)).
  { replace (- (N * m)) with (- (N * m + 1) + 1) by ring.
    rewrite Rpower_plus, Rpower_1 by lra. reflexivity. }
  assert (HQ : Rpower (1 + K / m) (- (N * m + 1)) * Rpower (1 + K / m) (N * m + 1) = 1).
  { rewrite <- Rpower_plus.
    replace (- (N * m + 1) + (N * m + 1)) with 0 by ring.
    apply Rpower_O. lra. }
  assert (E : Formula.IRR' K m N
              = / (K * K) * (Rpower (1 + K / m) (- (N * m + 1))
                             * (1 + (N * m + 1) * (K / m)) - 1)).
  { unfold Formula.IRR', Formula.IRR. rewrite HP0. field. lra. }
  rewrite E.
  set (P1 := Rpower (1 + K / m) (- (N * m + 1))) in *.
  set (Q := Rpower (1 + K / m) (N * m + 1)) in *.
  assert (Hlt : P1 * (1 + (N * m + 1) * (K / m)) < P1 * Q).
  { apply Rmult_lt_compat_l; assumption. }
  assert (HKK : 0 < / (K * K)).
  { apply Rinv_0_lt_compat, Rmult_lt_0_compat; assumption. }
  rewrite HQ in Hlt.
  replace 0 with (/ (K * K) * 0) by ring.
  apply Rmult_lt_compat_l; [exact HKK|lra].
Qed.

Lemma IRR_lt_N : Formula.IRR K m N < N.
Proof.
  assert (Hx : 0 < K / m) by (apply Rdiv_lt_0_compat; assumption).
  assert (Hn : 0 < N * m) by (apply Rmult_lt_0_compat; assumption).
  pose proof (Rpower_Bernoulli (K / m) (- (N * m)) Hx ltac:(left; lra)) as HB.
  unfold Formula.IRR.
  assert (HiK : 0 < / K) by (apply Rinv_0_lt_compat, HK).
  assert (E : N = 1 / K * (N * m * (K / m))) by (field; lra).
  rewrite E at 2.
  apply Rmult_lt_compat_l; [lra|]. lra.
Qed.

End IRRShape.

Lemma IRR_decreasing (K1 K2 m N : R) :
  0 < m -> 0 < N -> 0 < K1 < K2 -> Formula.IRR K2 m N < Formula.IRR K1 m N.
Proof.
  intros Hm HN [H1 H12].
  destruct (MVT_cor2 (fun K => Formula.IRR K m N) (fun K => Formula.IRR' K m N)
              K1 K2 H12) as [c [Hc Hin]].
  { intros c Hc. apply IRR_derivable; lra. }
  cbv beta in Hc.
  pose proof (IRR'_neg c m N ltac:(lra) Hm HN) as Hneg.
  assert (Formula.IRR' c m N * (K2 - K1) < 0) by nra.
  lra.
Qed.

(** X1.  On positive strikes, for a positive frequency and number of
    periods, the annuity [IRR_0] is strictly decreasing in the strike. *)
Theorem IRR_0_strictly_decreasing (K1 K2 m N : R) :
  0 < m -> 0 < N -> 0 < K1 < K2 ->
  exists v1 v2,
    IRR_0 K1 m N = Some v1 /\ IRR_0 K2 m N = Some v2 /\ v2 < v1.
Proof.
  intros Hm HN HK.
  exists (Formula.IRR K1 m N), (Formula.IRR K2 m N).
  split; [apply IRR_0_val; lra|]. split; [apply IRR_0_val; lra|].
  apply IRR_decreasing; assumption.
Qed.

Lemma IRR_0_strictly_decreasing_witness :
  0 < 2 /\ 0 < 10 /\ 0 < 1 / 100 < 1 / 10 /\
  exists v1 v2,
    IRR_0 (1 / 100) 2 10 = Some v1 /\ IRR_0 (1 / 10) 2 10 = Some v2 /\ v2 < v1.
Proof.
  split; [lra|]. split; [lra|]. split; [lra|].
  apply (IRR_0_strictly_decreasing (1 / 100) (1 / 10) 2 10); lra.
Defined.

(** X2.  On positive strikes [IRR_1] returns a strictly negative value and
    [IRR_0] a value below the number of periods [N]. *)
Theorem IRR_1_negative_IRR_0_below_N (K m N : R) :
  0 < K -> 0 < m -> 0 < N ->
  exists v0 v1,
    IRR_0 K m N = Some v0 /\ IRR_1 K m N = Some v1 /\ v0 < N /\ v1 < 0.
Proof.
  intros HK Hm HN.
  exists (Formula.IRR K m N), (Formula.IRR' K m N).
  split; [apply IRR_0_val; assumption|]. split; [apply IRR_1_val; assumption|].
  split; [apply IRR_lt_N; assumption|apply IRR'_neg; assumption].
Qed.

Lemma IRR_1_negative_IRR_0_below_N_witness :
  0 < 1 / 20 /\ 0 < 2 /\ 0 < 10 /\
  exists v0 v1,
    IRR_0 (1 / 20) 2 10 = Some v0 /\ IRR_1 (1 / 20) 2 10 = Some v1 /\
    v0 < 10 /\ v1 < 0.
Proof.
  split; [lra|]. split; [lra|]. split; [lra|].
  apply (IRR_1_negative_IRR_0_below_N (1 / 20) 2 10); lra.
Defined.

Lemma IRR_0_zero_strike (m N : R) : IRR_0 0 m N = None.
Proof.
  unfold IRR_0. cbn [val div lift2]. unfold div_R at 1.
  destruct (Req_EM_T 0 0) as [_ | E]; [reflexivity|contradiction E; reflexivity].
Qed.

(** X3.  The strike 0 is a removable singularity of the annuity: [IRR_0]
    fails at [K = 0] (division by zero), while on positive strikes its value
    tends to the number of periods [N] as the strike tends to 0. *)
Theorem IRR_0_near_zero_strike (m N : R) :
  0 < m ->
  IRR_0 0 m N = None /\
  forall eps, 0 < eps ->
    exists delta, 0 < delta /\
      forall K, 0 < K < delta ->
        exists v, IRR_0 K m N = Some v /\ Rabs (v - N) < eps.
Proof.
  intro Hm. split; [apply IRR_0_zero_strike|].
  intros eps Heps.
  assert (D : derivable_pt_lim (fun t => Rpower (1 + t / m) (- (N * m))) 0 (- N)).
  { assert (H0 : 0 < 1 + 0 / m) by (unfold Rdiv; rewrite Rmult_0_l; lra).
    D_auto ltac:(first [assumption | lra]). cbv beta.
    replace (1 + 0 / m) with 1 by (unfold Rdiv; rewrite Rmult_0_l; lra).
    rewrite Rpower_base_1. unfold Rsqr. field. lra. }
  destruct (D eps Heps) as [delta Hd].
  exists delta. split; [apply cond_pos|].
  intros K [HK0 HKd].
  exists (Formula.IRR K m N). split; [apply IRR_0_val; assumption|].
  specialize (Hd K ltac:(lra)).
  rewrite Rabs_pos_eq in Hd by lra. specialize (Hd HKd).
  cbv beta in Hd. rewrite Rplus_0_l in Hd.
  replace (1 + 0 / m) with 1 in Hd by (unfold Rdiv; rewrite Rmult_0_l; lra).
  rewrite Rpower_base_1 in Hd.
  unfold Formula.IRR.
  replace (1 / K * (1 - Rpower (1 + K / m) (- (N * m))) - N)
    with (- ((Rpower (1 + K / m) (- (N * m)) - 1) / K - - N)) by (field; lra).
  rewrite Rabs_Ropp. exact Hd.
Qed.

Lemma IRR_0_near_zero_strike_witness :
  0 < 2 /\ IRR_0 0 2 10 = None.
Proof.
  split; [lra|].
  apply (proj1 (IRR_0_near_zero_strike 2 10 ltac:(lra))).
Defined.

(** ** The payoff and the threshold *)

Lemma Rpower_00016_quarter : Rpower 0.0016 (1 / 4) = 0.2.
Proof. apply Rpower_quarter; lra. Qed.

Lemma payoff_sign (K : R) :
  0 < K ->
  (0 < Formula.g 4 2 0.04 K <-> 0.0016 < K) /\
  (Formula.g 4 2 0.04 K = 0 <-> K = 0.0016) /\
  (Formula.g 4 2 0.04 K < 0 <-> K < 0.0016).
Proof.
  intro HK.
  unfold Formula.g. rewrite Rpower_004_half, <- Rpower_00016_quarter.
  assert (Hup : 0.0016 < K -> Rpower 0.0016 (1 / 4) < Rpower K (1 / 4)).
  { intro H. apply Rlt_Rpower_l; lra. }
  assert (Hdn : K < 0.0016 -> Rpower K (1 / 4) < Rpower 0.0016 (1 / 4)).
  { intro H. apply Rlt_Rpower_l; lra. }
  destruct (Rtotal_order K 0.0016) as [Hlt | [Heq | Hgt]].
  - specialize (Hdn Hlt). repeat split; intro; lra.
  - rewrite Heq. repeat split; intro; lra.
  - specialize (Hup Hgt). repeat split; intro; lra.
Qed.

(** X4.  On positive strikes the payoff [g_0] is positive exactly above the
    threshold [0.0016] computed for [L], zero exactly at it, and negative
    exactly below it. *)
Theorem g_0_sign_at_threshold (K : R) :
  0 < K ->
  exists v,
    g_0 K = Some v /\
    (0 < v <-> 0.0016 < K) /\ (v = 0 <-> K = 0.0016) /\ (v < 0 <-> K < 0.0016).
Proof.
  intro HK. exists (Formula.g 4 2 0.04 K). split; [apply g_0_val, HK|].
  apply payoff_sign, HK.
Qed.

Lemma g_0_sign_at_threshold_witness :
  0 < 1 /\
  exists v,
    g_0 1 = Some v /\
    (0 < v <-> 0.0016 < 1) /\ (v = 0 <-> 1 = 0.0016) /\ (v < 0 <-> 1 < 0.0016).
Proof.
  split; [lra|]. apply (g_0_sign_at_threshold 1). lra.
Defined.

(** ** Strikes outside the positive axis *)

Lemma pow_R_zero_base (y : R) :
  pow_R 0 y = if Rlt_dec 0 y then Some 0 else if Req_EM_T y 0 then Some 1 else None.
Proof.
  unfold pow_R. destruct (Rlt_dec 0 0) as [F | _]; [lra|].
  destruct (Req_EM_T 0 0) as [_ | F]; [reflexivity|contradiction F; reflexivity].
Qed.

Lemma pow_R_neg_base_fraction (x y : R) (z : Z) :
  x < 0 -> IZR z < y < IZR z + 1 -> pow_R x y = None.
Proof.
  intros Hx Hy. unfold pow_R.
  destruct (Rlt_dec 0 x) as [F | _]; [lra|].
  destruct (Req_EM_T x 0) as [F | _]; [lra|].
  unfold is_integer. destruct (Req_EM_T _ _) as [E | _]; [|reflexivity].
  exfalso. assert (Hz : z = Int_part y) by (apply Int_part_spec; lra).
  rewrite <- Hz in E. lra.
Qed.

Lemma mul_None_r (a : PR) : mul a None = None.
Proof. destruct a; reflexivity. Qed.

Lemma sub_None_r (a : PR) : sub a None = None.
Proof. destruct a; reflexivity. Qed.

Lemma add_None_r (a : PR) : add a None = None.
Proof. destruct a; reflexivity. Qed.

Lemma div_None_r (a : PR) : div a None = None.
Proof. destruct a; reflexivity. Qed.

Lemma g_1_zero_strike : g_1 0 = None.
Proof.
  unfold g_1. py_eval. rewrite pow_R_zero_base.
  destruct (Rlt_dec 0 (-3 / 4)) as [F | _]; [lra|].
  destruct (Req_EM_T (-3 / 4) 0) as [F | _]; [lra|]. reflexivity.
Qed.

Lemma g_2_zero_strike : g_2 0 = None.
Proof.
  unfold g_2. py_eval. rewrite pow_R_zero_base.
  destruct (Rlt_dec 0 (-7 / 4)) as [F | _]; [lra|].
  destruct (Req_EM_T (-7 / 4) 0) as [F | _]; [lra|]. reflexivity.
Qed.

Lemma g_0_zero_strike : g_0 0 = Some (- 0.2).
Proof.
  unfold g_0. py_eval. rewrite pow_R_zero_base.
  destruct (Rlt_dec 0 (1 / 4)) as [_ | F]; [|lra].
  py_eval. rewrite Rpower_004_half. f_equal. lra.
Qed.

Lemma h_2_zero_strike (m N : R) : h_2 0 m N = None.
Proof. unfold h_2. rewrite IRR_0_zero_strike. reflexivity. Qed.

(** X5.  At the strike 0, the lower limit of the first quadrature, the
    payoff [g_0] returns [-0.2] but its derivatives [g_1], [g_2], the weights
    [h_0], [h_1], [h_2] and both integrands fail, whatever the other
    arguments are. *)
Theorem zero_strike_fails (discount F sigma T m N : R) :
  g_0 0 = Some (- 0.2) /\ g_1 0 = None /\ g_2 0 = None /\
  h_0 0 m N = None /\ h_1 0 m N = None /\ h_2 0 m N = None /\
  put_integrand discount F 0 sigma T m N = None /\
  call_integrand discount F 0 sigma T m N = None.
Proof.
  split; [exact g_0_zero_strike|]. split; [exact g_1_zero_strike|].
  split; [exact g_2_zero_strike|].
  split; [unfold h_0; rewrite IRR_0_zero_strike; apply div_None_r|].
  split; [unfold h_1; rewrite IRR_0_zero_strike; reflexivity|].
  split; [apply h_2_zero_strike|].
  unfold put_integrand, call_integrand. rewrite h_2_zero_strike.
  split; reflexivity.
Qed.

Lemma payoff_negative_strike (K : R) :
  K < 0 -> g_0 K = None /\ g_1 K = None /\ g_2 K = None.
Proof.
  intro HK. unfold g_0, g_1, g_2. py_eval.
  rewrite (pow_R_neg_base_fraction K (1 / 4) 0) by (simpl; lra).
  rewrite (pow_R_neg_base_fraction K (-3 / 4) (-1)) by (simpl; lra).
  rewrite (pow_R_neg_base_fraction K (-7 / 4) (-2)) by (simpl; lra).
  repeat split; reflexivity.
Qed.

(** X6.  On a negative strike the payoff and its derivatives have no real
    value: the fractional powers [K ** (1/4)], [K ** (-3/4)], [K ** (-7/4)]
    of a negative number fail. *)
Theorem payoff_negative_strike_fails (K : R) :
  K < 0 -> g_0 K = None /\ g_1 K = None /\ g_2 K = None.
Proof. exact (payoff_negative_strike K). Qed.

Lemma payoff_negative_strike_fails_witness :
  -1 < 0 /\ g_0 (-1) = None /\ g_1 (-1) = None /\ g_2 (-1) = None.
Proof.
  split; [lra|]. apply (payoff_negative_strike_fails (-1)). lra.
Defined.

(** ** Black76: symmetries *)

Lemma ln_swap (F K : R) : 0 < F -> 0 < K -> ln (K / F) = - ln (F / K).
Proof.
  intros HF HK. rewrite <- ln_Rinv by (apply Rdiv_lt_0_compat; assumption).
  f_equal. field. lra.
Qed.

Lemma d1_swap (F K sigma T : R) :
  0 < F -> 0 < K -> sigma <> 0 -> 0 < T ->
  Formula.d1 K F sigma T = - Formula.d2 F K sigma T.
Proof.
  intros HF HK Hs HT.
  assert (Hq : sqrt T <> 0) by (apply Rgt_not_eq, sqrt_lt_R0, HT).
  unfold Formula.d1, Formula.d2. rewrite (ln_swap F K HF HK). field.
  split; assumption.
Qed.

Lemma d2_swap (F K sigma T : R) :
  0 < F -> 0 < K -> sigma <> 0 -> 0 < T ->
  Formula.d2 K F sigma T = - Formula.d1 F K sigma T.
Proof.
  intros HF HK Hs HT.
  assert (Hq : sqrt T <> 0) by (apply Rgt_not_eq, sqrt_lt_R0, HT).
  unfold Formula.d1, Formula.d2. rewrite (ln_swap F K HF HK). field.
  split; assumption.
Qed.

(** X7.  Put-call duality: for positive forward and strike, a non-zero
    volatility and a positive maturity, the put on forward [F] struck at [K]
    has the value of the call on forward [K] struck at [F]. *)
Theorem Black76_put_call_duality (F K sigma T : R) :
  0 < F -> 0 < K -> sigma <> 0 -> 0 < T ->
  exists p, Black76Put F K sigma T = Some p /\ Black76Call K F sigma T = Some p.
Proof.
  intros HF HK Hs HT.
  exists (Formula.Black76Put F K sigma T).
  split; [apply Black76Put_val; assumption|].
  rewrite Black76Call_val by assumption. f_equal.
  unfold Formula.Black76Call, Formula.Black76Put.
  rewrite (d1_swap F K), (d2_swap F K) by assumption. reflexivity.
Qed.

Lemma Black76_put_call_duality_witness :
  0 < 1 /\ 0 < 2 /\ 1 / 2 <> 0 /\ 0 < 5 /\
  exists p, Black76Put 1 2 (1 / 2) 5 = Some p /\ Black76Call 2 1 (1 / 2) 5 = Some p.
Proof.
  split; [lra|]. split; [lra|]. split; [lra|]. split; [lra|].
  apply (Black76_put_call_duality 1 2 (1 / 2) 5); lra.
Defined.

Lemma d1_opp_vol (F K sigma T : R) :
  sigma <> 0 -> 0 < T ->
  Formula.d1 F K (- sigma) T = - Formula.d1 F K sigma T /\
  Formula.d2 F K (- sigma) T = - Formula.d2 F K sigma T.
Proof.
  intros Hs HT.
  assert (Hq : sqrt T <> 0) by (apply Rgt_not_eq, sqrt_lt_R0, HT).
  unfold Formula.d1, Formula.d2. split; field; split; assumption.
Qed.

(** X8.  The prices accept a negative volatility, which [SABR] can
    return, without failing: the call at volatility [- sigma] is minus the
    put at volatility [sigma], and the put is minus the call. *)
Theorem Black76_negative_volatility (F K sigma T : R) :
  0 < F -> 0 < K -> 0 < sigma -> 0 < T ->
  exists c p,
    Black76Call F K sigma T = Some c /\ Black76Put F K sigma T = Some p /\
    Black76Call F K (- sigma) T = Some (- p) /\
    Black76Put F K (- sigma) T = Some (- c).
Proof.
  intros HF HK Hs HT.
  assert (Hs0 : sigma <> 0) by lra. assert (Hs1 : - sigma <> 0) by lra.
  destruct (d1_opp_vol F K sigma T Hs0 HT) as [E1 E2].
  exists (Formula.Black76Call F K sigma T), (Formula.Black76Put F K sigma T).
  rewrite !Black76Call_val, !Black76Put_val by assumption.
  repeat split; f_equal; unfold Formula.Black76Call, Formula.Black76Put;
    rewrite E1, E2, ?Ropp_involutive; ring.
Qed.

Lemma Black76_negative_volatility_witness :
  0 < 1 /\ 0 < 2 /\ 0 < 1 / 2 /\ 0 < 5 /\
  exists c p,
    Black76Call 1 2 (1 / 2) 5 = Some c /\ Black76Put 1 2 (1 / 2) 5 = Some p /\
    Black76Call 1 2 (- (1 / 2)) 5 = Some (- p) /\
    Black76Put 1 2 (- (1 / 2)) 5 = Some (- c).
Proof.
  split; [lra|]. split; [lra|]. split; [lra|]. split; [lra|].
  apply (Black76_negative_volatility 1 2 (1 / 2) 5); lra.
Defined.

(** X9.  Homogeneity: scaling forward and strike by a positive factor
    scales both option values by that factor. *)
Theorem Black76_homogeneous (lambda F K sigma T : R) :
  0 < lambda -> 0 < F -> 0 < K -> sigma <> 0 -> 0 < T ->
  exists c p,
    Black76Call F K sigma T = Some c /\ Black76Put F K sigma T = Some p /\
    Black76Call (lambda * F) (lambda * K) sigma T = Some (lambda * c) /\
    Black76Put (lambda * F) (lambda * K) sigma T = Some (lambda * p).
Proof.
  intros Hl HF HK Hs HT.
  assert (HlF : 0 < lambda * F) by (apply Rmult_lt_0_compat; assumption).
  assert (HlK : 0 < lambda * K) by (apply Rmult_lt_0_compat; assumption).
  assert (Er : lambda * F / (lambda * K) = F / K) by (field; lra).
  exists (Formula.Black76Call F K sigma T), (Formula.Black76Put F K sigma T).
  rewrite !Black76Call_val, !Black76Put_val by assumption.
  repeat split; f_equal; unfold Formula.Black76Call, Formula.Black76Put,
    Formula.d1, Formula.d2; rewrite Er; ring.
Qed.

Lemma Black76_homogeneous_witness :
  0 < 3 /\ 0 < 1 /\ 0 < 2 /\ 1 / 2 <> 0 /\ 0 < 5 /\
  exists c p,
    Black76Call 1 2 (1 / 2) 5 = Some c /\ Black76Put 1 2 (1 / 2) 5 = Some p /\
    Black76Call (3 * 1) (3 * 2) (1 / 2) 5 = Some (3 * c) /\
    Black76Put (3 * 1) (3 * 2) (1 / 2) 5 = Some (3 * p).
Proof.
  split; [lra|]. split; [lra|]. split; [lra|]. split; [lra|]. split; [lra|].
  apply (Black76_homogeneous 3 1 2 (1 / 2) 5); lra.
Defined.

(** ** At the money *)

Lemma cdf_increasing (x y : R) : x < y -> Normal.cdf x < Normal.cdf y.
Proof.
  intro Hxy.
  destruct (MVT_cor2 Normal.cdf Normal.pdf x y Hxy) as [c [Hc _]].
  { intros c _. apply NormalFacts.cdf_derivable_pt_lim. }
  pose proof (Normal.pdf_pos c) as Hp.
  assert (0 < Normal.pdf c * (y - x)) by (apply Rmult_lt_0_compat; lra).
  lra.
Qed.

Lemma d_at_the_money (F sigma T : R) :
  0 < F -> sigma <> 0 -> 0 < T ->
  Formula.d1 F F sigma T = sigma * sqrt T / 2 /\
  Formula.d2 F F sigma T = - (sigma * sqrt T / 2).
Proof.
  intros HF Hs HT.
  assert (Hq : sqrt T <> 0) by (apply Rgt_not_eq, sqrt_lt_R0, HT).
  assert (ET : T = sqrt T * sqrt T) by (symmetry; apply sqrt_sqrt; lra).
  assert (E : F / F = 1) by (field; lra).
  unfold Formula.d1, Formula.d2. rewrite E, ln_1.
  set (s := sqrt T) in *. clearbody s. subst T.
  split; field; split; assumption.
Qed.

(** X10.  At the money ([K = F]), for positive forward, volatility and
    maturity, the call value is
    [F * (Phi(sigma * sqrt T / 2) - Phi(- sigma * sqrt T / 2))]; it is
    strictly positive and strictly increasing in the volatility. *)
Theorem Black76Call_at_the_money (F sigma1 sigma2 T : R) :
  0 < F -> 0 < T -> 0 < sigma1 < sigma2 ->
  exists c1 c2,
    Black76Call F F sigma1 T = Some c1 /\
    Black76Call F F sigma2 T = Some c2 /\
    c1 = F * (Normal.cdf (sigma1 * sqrt T / 2) - Normal.cdf (- (sigma1 * sqrt T / 2))) /\
    0 < c1 < c2.
Proof.
  intros HF HT [H1 H12].
  assert (Hq : 0 < sqrt T) by (apply sqrt_lt_R0, HT).
  destruct (d_at_the_money F sigma1 T HF ltac:(lra) HT) as [E1 E2].
  destruct (d_at_the_money F sigma2 T HF ltac:(lra) HT) as [E3 E4].
  exists (Formula.Black76Call F F sigma1 T), (Formula.Black76Call F F sigma2 T).
  rewrite !Black76Call_val by lra.
  split; [reflexivity|]. split; [reflexivity|].
  unfold Formula.Black76Call. rewrite E1, E2, E3, E4.
  split; [ring|].
  assert (Hd1 : 0 < sigma1 * sqrt T / 2) by nra.
  assert (Hd12 : sigma1 * sqrt T / 2 < sigma2 * sqrt T / 2) by nra.
  pose proof (NormalFacts.cdf_lt_opp _ Hd1) as Hp.
  pose proof (cdf_increasing _ _ Hd12) as Hup.
  assert (Hdn : Normal.cdf (- (sigma2 * sqrt T / 2)) < Normal.cdf (- (sigma1 * sqrt T / 2))).
  { apply cdf_increasing. lra. }
  split; nra.
Qed.

Lemma Black76Call_at_the_money_witness :
  0 < 1 /\ 0 < 5 /\ 0 < 1 / 4 < 1 / 2 /\
  exists c1 c2,
    Black76Call 1 1 (1 / 4) 5 = Some c1 /\
    Black76Call 1 1 (1 / 2) 5 = Some c2 /\
    c1 = 1 * (Normal.cdf (1 / 4 * sqrt 5 / 2) - Normal.cdf (- (1 / 4 * sqrt 5 / 2))) /\
    0 < c1 < c2.
Proof.
  split; [lra|]. split; [lra|]. split; [lra|].
  apply (Black76Call_at_the_money 1 (1 / 4) (1 / 2) 5); lra.
Defined.

(** ** Swaption parity *)

(** X11.  Swaption parity: for positive forward and strike, a non-zero
    volatility, a positive maturity and a positive frequency, the payer value
    minus the receiver value is [discount * IRR(F) * (F - K)], and the
    difference of the two integrands is the weight [h_2 K] times that. *)
Theorem swaption_parity (discount F K sigma T m N : R) :
  0 < F -> 0 < K -> sigma <> 0 -> 0 < T -> 0 < m -> 0 < N ->
  exists a pay rec w,
    IRR_0 F m N = Some a /\
    payer_swaption discount F K sigma T m N = Some pay /\
    receiver_swaption discount F K sigma T m N = Some rec /\
    pay - rec = discount * a * (F - K) /\
    h_2 K m N = Some w /\
    (call_integrand discount F K sigma T m N - put_integrand discount F K sigma T m N)%py
    = Some (w * (discount * a * (F - K))).
Proof.
  intros HF HK Hs HT Hm HN.
  pose proof (Black76_parity F K sigma T) as Hp.
  exists (Formula.IRR F m N),
    (discount * Formula.IRR F m N * Formula.Black76Call F K sigma T),
    (discount * Formula.IRR F m N * Formula.Black76Put F K sigma T),
    (Formula.h'' 4 2 0.04 K m N).
  unfold call_integrand, put_integrand, payer_swaption, receiver_swaption. cbv zeta.
  rewrite h_2_val, IRR_0_val, Black76Call_val, Black76Put_val by assumption.
  py_eval.
  split; [reflexivity|]. split; [reflexivity|]. split; [reflexivity|].
  split; [nra|]. split; [reflexivity|].
  f_equal. nra.
Qed.

Lemma swaption_parity_witness :
  0 < 1 /\ 0 < 2 /\ 1 / 2 <> 0 /\ 0 < 5 /\ 0 < 2 /\ 0 < 10 /\
  exists a pay rec,
    IRR_0 1 2 10 = Some a /\
    payer_swaption 1 1 2 (1 / 2) 5 2 10 = Some pay /\
    receiver_swaption 1 1 2 (1 / 2) 5 2 10 = Some rec /\
    pay - rec = 1 * a * (1 - 2).
Proof.
  repeat (split; [lra|]).
  destruct (swaption_parity 1 1 2 (1 / 2) 5 2 10) as (a & pay & rec & w & H);
    try lra.
  exists a, pay, rec. tauto.
Defined.

(** ** The weights and the payoff *)

(** X12.  Product rule: on positive strikes the weights give back the
    payoff and its derivatives, [g_0 = h_0 * IRR_0],
    [g_1 = h_1 * IRR_0 + h_0 * IRR_1] and
    [g_2 = h_2 * IRR_0 + 2 * h_1 * IRR_1 + h_0 * IRR_2]. *)
Theorem weights_product_rule (K m N : R) :
  0 < K -> 0 < m -> 0 < N ->
  (exists v, g_0 K = Some v) /\
  g_0 K = (h_0 K m N * IRR_0 K m N)%py /\
  g_1 K = (h_1 K m N * IRR_0 K m N + h_0 K m N * IRR_1 K m N)%py /\
  g_2 K = (h_2 K m N * IRR_0 K m N + 2 * h_1 K m N * IRR_1 K m N
           + h_0 K m N * IRR_2 K m N)%py.
Proof.
  intros HK Hm HN.
  pose proof (IRR_neq_0 K m N HK Hm HN) as Hi.
  rewrite h_0_val, h_1_val, h_2_val, IRR_0_val, IRR_1_val, IRR_2_val,
    g_0_val, g_1_val, g_2_val by assumption.
  py_eval. split; [eexists; reflexivity|].
  unfold Formula.h, Formula.h', Formula.h''.
  repeat split; f_equal; field; exact Hi.
Qed.

Lemma weights_product_rule_witness :
  0 < 1 / 20 /\ 0 < 2 /\ 0 < 10 /\
  g_1 (1 / 20)
  = (h_1 (1 / 20) 2 10 * IRR_0 (1 / 20) 2 10 + h_0 (1 / 20) 2 10 * IRR_1 (1 / 20) 2 10)%py.
Proof.
  repeat (split; [lra|]).
  apply (weights_product_rule (1 / 20) 2 10); lra.
Defined.

(** X13.  The weight [h_0] has the sign of the payoff: on positive strikes
    it is positive exactly above the threshold [0.0016] and zero exactly at
    it; at the threshold the first-derivative weight [h_1], the coefficient of
    the boundary term of scenario 2, is [g_1 / IRR_0] and strictly
    positive. *)
Theorem weights_at_threshold (K m N : R) :
  0 < K -> 0 < m -> 0 < N ->
  (exists v, h_0 K m N = Some v /\
             (0 < v <-> 0.0016 < K) /\ (v = 0 <-> K = 0.0016)) /\
  (exists w, h_1 0.0016 m N = Some w /\
             h_1 0.0016 m N = (g_1 0.0016 / IRR_0 0.0016 m N)%py /\ 0 < w).
Proof.
  intros HK Hm HN. split.
  - destruct (payoff_sign K HK) as (Hpos & Hz & _).
    destruct (IRR_bounds K m N HK Hm HN) as [Hi _].
    exists (Formula.h 4 2 0.04 K m N). split; [apply h_0_val; assumption|].
    unfold Formula.h.
    assert (Hinv : 0 < / Formula.IRR K m N) by (apply Rinv_0_lt_compat, Hi).
    unfold Rdiv. split; split; intro H.
    + apply Hpos. nra.
    + apply Hpos in H. apply Rmult_lt_0_compat; assumption.
    + apply Hz. nra.
    + apply Hz in H. rewrite H. ring.
  - assert (HL : 0 < 0.0016) by lra.
    destruct (IRR_bounds 0.0016 m N HL Hm HN) as [Hi _].
    assert (Hg : Formula.g 4 2 0.04 0.0016 = 0).
    { unfold Formula.g. rewrite Rpower_00016_quarter, Rpower_004_half. lra. }
    exists (Formula.g' 4 0.0016 / Formula.IRR 0.0016 m N).
    assert (E : h_1 0.0016 m N
                = Some (Formula.g' 4 0.0016 / Formula.IRR 0.0016 m N)).
    { rewrite h_1_val by assumption. f_equal. unfold Formula.h'. rewrite Hg.
      field. lra. }
    split; [exact E|]. split.
    + rewrite E, g_1_val, IRR_0_val by assumption. py_eval. reflexivity.
    + apply Rdiv_lt_0_compat; [|exact Hi].
      unfold Formula.g'. apply Rmult_lt_0_compat; [lra|apply Rpower_pos].
Qed.

Lemma weights_at_threshold_witness :
  0 < 1 /\ 0 < 2 /\ 0 < 10 /\
  exists w, h_1 0.0016 2 10 = Some w /\
            h_1 0.0016 2 10 = (g_1 0.0016 / IRR_0 0.0016 2 10)%py /\ 0 < w.
Proof.
  repeat (split; [lra|]).
  apply (proj2 (weights_at_threshold 1 2 10 ltac:(lra) ltac:(lra) ltac:(lra))).
Defined.

(** ** SABR: degenerate and symmetric cases *)

Lemma div_R_zero (x y : R) : y = 0 -> div_R x y = None.
Proof.
  intro Hy. unfold div_R. destruct (Req_EM_T y 0) as [_ | E]; [reflexivity|contradiction].
Qed.

Lemma log_R_nonpos (x : R) : ~ 0 < x -> log_R x = None.
Proof.
  intro Hx. unfold log_R. destruct (Rlt_dec 0 x) as [E | _]; [contradiction|reflexivity].
Qed.

(** Propagate a failure through the enclosing operations. *)
Ltac py_fail :=
  repeat first
    [ progress cbn [val add sub mul div neg pow np_log np_sqrt norm_cdf
                    lift1 lift2 bind]
    | rewrite mul_None_r
    | rewrite sub_None_r
    | rewrite add_None_r
    | rewrite div_None_r ].

Lemma sabr_chi_zero (rho : R) : rho < 1 -> Formula.sabr_chi rho 0 = 0.
Proof.
  intro Hr. unfold Formula.sabr_chi.
  replace (1 - 2 * rho * 0 + 0 ^ 2) with 1 by ring.
  rewrite sqrt_1. replace ((1 + 0 - rho) / (1 - rho)) with 1 by (field; lra).
  apply ln_1.
Qed.

(** X14.  Without volatility of volatility ([nu = 0]) the general branch
    divides zero by zero: away from the money, for positive forward and
    strike, a non-zero [alpha] and [|rho| < 1], [SABR] has no value. *)
Theorem SABR_zero_nu_fails (F K T alpha beta rho : R) :
  0 < F -> 0 < K -> alpha <> 0 -> -1 < rho < 1 ->
  ~ Rabs (F - K) < 1e-12 ->
  SABR F K T alpha beta rho 0 = None.
Proof.
  intros HF HK Ha Hr Hb.
  unfold SABR. destruct (Rlt_dec _ _) as [Hn | _]; [contradiction|].
  cbv zeta.
  assert (HFK : 0 < F * K) by (apply Rmult_lt_0_compat; assumption).
  assert (HFdK : 0 < F / K) by (apply Rdiv_lt_0_compat; assumption).
  assert (Hz : (val 0 / val alpha * (val F * val K) ** (val 0.5 * (val 1 - val beta))
                * np_log (val F / val K))%py = val 0).
  { py_eval. unfold val. f_equal. unfold Rdiv. ring. }
  rewrite Hz, (chi_val rho 0 Hr), (sabr_chi_zero rho) by lra.
  py_eval.
  apply div_R_zero. ring.
Qed.

Lemma SABR_zero_nu_fails_witness :
  0 < 1 /\ 0 < 4 /\ 1 <> 0 /\ -1 < 0 < 1 /\ ~ Rabs (1 - 4) < 1e-12 /\
  SABR 1 4 5 1 0.9 0 0 = None.
Proof.
  assert (Hb : ~ Rabs (1 - 4) < 1e-12).
  { intro H. apply Rabs_def2 in H. lra. }
  split; [lra|]. split; [lra|]. split; [lra|]. split; [lra|]. split; [exact Hb|].
  apply (SABR_zero_nu_fails 1 4 5 1 0.9 0); first [lra | exact Hb].
Defined.

Lemma sabr_z_swap (F K alpha beta nu : R) :
  0 < F -> 0 < K ->
  Formula.sabr_z K F alpha beta nu = - Formula.sabr_z F K alpha beta nu.
Proof.
  intros HF HK. unfold Formula.sabr_z.
  rewrite (Rmult_comm K F), (ln_swap F K HF HK). ring.
Qed.

Lemma sabr_chi_odd_no_correlation (z : R) :
  Formula.sabr_chi 0 (- z) = - Formula.sabr_chi 0 z.
Proof.
  assert (Hr : -1 < 0 < 1) by lra.
  destruct (chi_sqrt_spec 0 z Hr) as [Hs Hss].
  pose proof (chi_arg_pos 0 z Hr) as Hpos.
  unfold Formula.sabr_chi.
  replace (1 - 2 * 0 * - z + (- z) ^ 2) with (1 - 2 * 0 * z + z ^ 2) by ring.
  set (s := sqrt (1 - 2 * 0 * z + z ^ 2)) in *.
  rewrite <- ln_Rinv by exact Hpos. f_equal.
  assert (Hne : s + z - 0 <> 0).
  { intro E. rewrite E in Hpos. unfold Rdiv in Hpos. rewrite Rmult_0_l in Hpos. lra. }
  apply Rmult_eq_reg_r with (s + z - 0); [|exact Hne].
  replace (/ ((s + z - 0) / (1 - 0)) * (s + z - 0)) with 1 by (field; lra).
  replace ((s + - z - 0) / (1 - 0) * (s + z - 0)) with (s * s - z * z) by (field; lra).
  rewrite Hss. ring.
Qed.

Lemma sabr_general_swap_no_correlation (F K T alpha beta nu : R) :
  0 < F -> 0 < K -> 0 < alpha -> 0 < nu -> F <> K ->
  Formula.sabr_general K F T alpha beta 0 nu
  = Formula.sabr_general F K T alpha beta 0 nu.
Proof.
  intros HF HK Ha Hn HFK.
  assert (Hr : -1 < 0 < 1) by lra.
  pose proof (sabr_denom_neq_0 F K alpha beta 0 nu HF HK Ha Hn Hr HFK) as Hd.
  assert (Ef : Formula.sabr_factor K F T alpha beta 0 nu
               = Formula.sabr_factor F K T alpha beta 0 nu).
  { unfold Formula.sabr_factor, Formula.sabr_numer1, Formula.sabr_numer2.
    rewrite (Rmult_comm K F). reflexivity. }
  assert (Ed : Formula.sabr_denom K F alpha beta 0 nu
               = - Formula.sabr_denom F K alpha beta 0 nu).
  { unfold Formula.sabr_denom, Formula.sabr_denom1, Formula.sabr_denom2.
    rewrite (sabr_z_swap F K) by assumption.
    rewrite sabr_chi_odd_no_correlation, (Rmult_comm K F), (ln_swap F K HF HK).
    ring. }
  unfold Formula.sabr_general.
  rewrite Ef, Ed, (sabr_z_swap F K) by assumption.
  field. exact Hd.
Qed.

(** X15.  Without correlation ([rho = 0]) the smile is symmetric in
    forward and strike: away from the money, exchanging them leaves the
    volatility unchanged. *)
Theorem SABR_symmetric_no_correlation (F K T alpha beta nu : R) :
  0 < F -> 0 < K -> 0 < alpha -> 0 < nu -> ~ Rabs (F - K) < 1e-12 ->
  exists v,
    SABR F K T alpha beta 0 nu = Some v /\ SABR K F T alpha beta 0 nu = Some v.
Proof.
  intros HF HK Ha Hn Hb.
  assert (Hr : -1 < 0 < 1) by lra.
  pose proof (not_near_neq F K Hb) as HFK.
  assert (Hb' : ~ Rabs (K - F) < 1e-12) by (rewrite Rabs_minus_sym; exact Hb).
  exists (Formula.sabr_general F K T alpha beta 0 nu).
  split; [apply SABR_general_val; assumption|].
  rewrite SABR_general_val; try assumption.
  - f_equal. apply sabr_general_swap_no_correlation; assumption.
  - intro E. apply HFK. symmetry. exact E.
Qed.

Lemma SABR_symmetric_no_correlation_witness :
  0 < 1 /\ 0 < 4 /\ 0 < 1 /\ 0 < 2 /\ ~ Rabs (1 - 4) < 1e-12 /\
  exists v, SABR 1 4 5 1 0.9 0 2 = Some v /\ SABR 4 1 5 1 0.9 0 2 = Some v.
Proof.
  assert (Hb : ~ Rabs (1 - 4) < 1e-12).
  { intro H. apply Rabs_def2 in H. lra. }
  split; [lra|]. split; [lra|]. split; [lra|]. split; [lra|]. split; [exact Hb|].
  apply (SABR_symmetric_no_correlation 1 4 5 1 0.9 2); first [lra | exact Hb].
Defined.

(** ** Negative forwards *)

Lemma SABR_negative_forward (F K T alpha beta rho nu : R) :
  F < 0 -> 0 < K -> ~ Rabs (F - K) < 1e-12 ->
  SABR F K T alpha beta rho nu = None.
Proof.
  intros HF HK Hb.
  unfold SABR. destruct (Rlt_dec _ _) as [Hn | _]; [contradiction|].
  cbv zeta.
  assert (Hlog : np_log (val F / val K)%py = None).
  { cbn [val div lift2 np_log lift1]. rewrite div_R_val by lra.
    cbn [lift1]. apply log_R_nonpos.
    assert (0 < / K) by (apply Rinv_0_lt_compat, HK). unfold Rdiv. nra. }
  rewrite Hlog. py_fail. reflexivity.
Qed.

(** X16.  A negative forward has no present value in either scenario,
    whatever the quadrature returns: scenario 1 fails on the fractional power
    in [g_0 F], scenario 2 on the logarithm of [F / L] in [SABR]. *)
Theorem negative_forward_fails
    (quad : (R -> PR) -> R -> R -> option (R * R))
    (discount F T m N alpha beta rho nu : R) :
  F < 0 ->
  v_0 quad discount F T m N alpha beta rho nu = None /\
  v_1 quad discount F T m N alpha beta rho nu = None.
Proof.
  intro HF. split.
  - unfold v_0.
    destruct (I_put quad discount F T m N alpha beta rho nu) as [p |];
      [|reflexivity].
    destruct (I_call quad discount F T m N alpha beta rho nu) as [c |];
      [|reflexivity].
    cbn [bind]. rewrite (proj1 (payoff_negative_strike F HF)).
    py_fail. reflexivity.
  - unfold v_1. rewrite L_val. cbn [bind]. unfold v_1_at.
    destruct (I_call2 quad discount F T m N alpha beta rho nu 0.0016) as [c |];
      [|reflexivity].
    cbn [bind]. rewrite SABR_negative_forward; [reflexivity|exact HF|lra|].
    intro H. apply Rabs_def2 in H. lra.
Qed.

Lemma negative_forward_fails_witness :
  -1 < 0 /\
  v_0 (fun _ _ _ => Some (0, 0)) 1 (-1) 5 2 10 1 0.9 0 1 = None /\
  v_1 (fun _ _ _ => Some (0, 0)) 1 (-1) 5 2 10 1 0.9 0 1 = None.
Proof.
  split; [lra|].
  apply (negative_forward_fails (fun _ _ _ => Some (0, 0)) 1 (-1) 5 2 10 1 0.9 0 1).
  lra.
Defined.

(** ** Degenerate schedules and convexity *)

(** X17.  With no periods ([N = 0]) the annuity of a positive strike is
    exactly 0, so every weight fails on the division by it. *)
Theorem degenerate_schedule (K m : R) :
  0 < K -> 0 < m ->
  IRR_0 K m 0 = Some 0 /\
  h_0 K m 0 = None /\ h_1 K m 0 = None /\ h_2 K m 0 = None.
Proof.
  intros HK Hm.
  assert (E0 : IRR_0 K m 0 = Some 0).
  { rewrite IRR_0_val by assumption. f_equal. unfold Formula.IRR.
    replace (- (0 * m)) with 0 by ring.
    rewrite Rpower_O by (apply Rlt_trans with 1; [lra|apply base_gt_1; assumption]).
    ring. }
  split; [exact E0|].
  split; [|split].
  - unfold h_0. rewrite E0, g_0_val by exact HK. py_fail. apply div_R_zero. reflexivity.
  - unfold h_1. rewrite E0, g_0_val, g_1_val, IRR_1_val by assumption.
    py_fail. rewrite pow_R_2. apply div_R_zero. ring.
  - unfold h_2. rewrite E0, g_0_val, g_1_val, g_2_val, IRR_1_val, IRR_2_val
      by assumption.
    py_fail. rewrite !pow_R_2. py_fail. rewrite (div_R_zero _ (0 ^ 2)) by ring.
    reflexivity.
Qed.

Lemma degenerate_schedule_witness :
  0 < 1 / 20 /\ 0 < 2 /\
  IRR_0 (1 / 20) 2 0 = Some 0 /\ h_0 (1 / 20) 2 0 = None.
Proof.
  split; [lra|]. split; [lra|].
  destruct (degenerate_schedule (1 / 20) 2) as (H1 & H2 & _); try lra.
  split; assumption.
Defined.

(** Bernoulli's inequality to second order. *)
Lemma Rpower_Bernoulli_2 (x r : R) :
  0 < x -> 2 < r -> 1 + r * x + r * (r - 1) / 2 * (x * x) < Rpower (1 + x) r.
Proof.
  intros Hx Hr.
  destruct (MVT_cor2 (fun t => Rpower (1 + t) r - r * t - r * (r - 1) / 2 * (t * t))
              (fun t => r * Rpower (1 + t) (r - 1) - r - r * (r - 1) * t) 0 x Hx)
    as [c [Hc Hin]].
  { intros c Hc.
    D_auto ltac:(lra). cbv beta. field. }
  cbv beta in Hc.
  replace (1 + 0) with 1 in Hc by lra. rewrite Rpower_base_1 in Hc.
  pose proof (Rpower_Bernoulli c (r - 1) ltac:(lra) ltac:(right; lra)) as HB.
  assert (0 < (r * Rpower (1 + c) (r - 1) - r - r * (r - 1) * c) * (x - 0)).
  { apply Rmult_lt_0_compat; [nra|lra]. }
  lra.
Qed.

Lemma IRR''_pos (K m N : R) : 0 < K -> 0 < m -> 0 < N -> 0 < Formula.IRR'' K m N.
Proof.
  intros HK Hm HN.
  assert (Hx : 0 < K / m) by (apply Rdiv_lt_0_compat; assumption).
  assert (Hn : 0 < N * m) by (apply Rmult_lt_0_compat; assumption).
  pose proof (Rpower_Bernoulli_2 (K / m) (N * m + 2) Hx ltac:(lra)) as HB.
  set (u := 1 + K / m) in *.
  assert (Hu : 0 < u) by (unfold u; lra).
  pose proof (Rpower_pos u (- (N * m + 2))) as HP2.
  assert (HP1 : Rpower u (- (N * m + 1)) = Rpower u (- (N * m + 2)) * u).
  { replace (- (N * m + 1)) with (- (N * m + 2) + 1) by ring.
    rewrite Rpower_plus, Rpower_1 by exact Hu. reflexivity. }
  assert (HP0 : Rpower u (- (N * m)) = Rpower u (- (N * m + 2)) * (u * u)).
  { replace (- (N * m)) with (- (N * m + 2) + 1 + 1) by ring.
    rewrite !Rpower_plus, Rpower_1 by exact Hu. ring. }
  assert (HQ : Rpower u (- (N * m + 2)) * Rpower u (N * m + 2) = 1).
  { rewrite <- Rpower_plus.
    replace (- (N * m + 2) + (N * m + 2)) with 0 by ring.
    apply Rpower_O. exact Hu. }
  assert (E : Formula.IRR'' K m N
              = / (K * K * K)
                * (2 - Rpower u (- (N * m + 2))
                       * (2 + 2 * (N * m + 2) * (K / m)
                          + (N * m + 2) * (N * m + 1) * (K / m * (K / m))))).
  { unfold Formula.IRR'', Formula.IRR', Formula.IRR. fold u.
    rewrite HP0, HP1. unfold u. field. lra. }
  rewrite E.
  set (P2 := Rpower u (- (N * m + 2))) in *.
  set (Q := Rpower u (N * m + 2)) in *.
  assert (Hlt : P2 * (2 + 2 * (N * m + 2) * (K / m)
                      + (N * m + 2) * (N * m + 1) * (K / m * (K / m)))
                < P2 * (2 * Q)).
  { apply Rmult_lt_compat_l; [exact HP2|]. lra. }
  assert (HK3 : 0 < / (K * K * K)).
  { apply Rinv_0_lt_compat. repeat apply Rmult_lt_0_compat; assumption. }
  apply Rmult_lt_0_compat; [exact HK3|]. nra.
Qed.

(** X18.  On positive strikes, for a positive frequency and number of
    periods, [IRR_2] returns a strictly positive value: the annuity is convex
    in the strike. *)
Theorem IRR_2_positive (K m N : R) :
  0 < K -> 0 < m -> 0 < N ->
  exists v, IRR_2 K m N = Some v /\ 0 < v.
Proof.
  intros HK Hm HN. exists (Formula.IRR'' K m N).
  split; [apply IRR_2_val; assumption|apply IRR''_pos; assumption].
Qed.

Lemma IRR_2_positive_witness :
  0 < 1 / 20 /\ 0 < 2 /\ 0 < 10 /\
  exists v, IRR_2 (1 / 20) 2 10 = Some v /\ 0 < v.
Proof.
  repeat (split; [lra|]).
  apply (IRR_2_positive (1 / 20) 2 10); lra.
Defined.
